(** * Batch node of eino-examples (compose/batch/batch): a Rocq model

    The development follows the three Go files of the package:
    - [store.go]: the per-index checkpoint bridge ([batchBridgeStore]);
    - [types.go]: [NodeInterruptState];
    - [node.go]: [Node.invoke], the batch orchestrator.

    Go's [int] is modelled by [Z] (indices are never combined
    arithmetically, only compared with slice lengths), slices by lists
    with explicit bounds checks ([None] stands for a run-time panic),
    maps by [gmap], and [any] by an abstract type with the two type
    assertions the code performs. *)

From Stdlib Require Import ZArith Lia Ascii String List.
From stdpp Require Import gmap strings list fin_maps.

Local Open Scope Z_scope.

(** ** Go standard library functions used by store.go *)

Module GoStd.

Definition maxInt : Z := 2 ^ 63 - 1.
Definition minInt : Z := - 2 ^ 63.

(** [byte('0' + d)] *)
Definition digitChar (d : Z) : ascii := ascii_of_nat (Z.to_nat (48 + d)).

(** The digit loop of [fmt]'s integer formatting: the least significant
    digit is written first, at the end of the buffer.  A 64-bit value
    has at most 20 decimal digits, which bounds the loop. *)
Fixpoint fmtDigits (fuel : nat) (u : Z) (acc : string) : string :=
  match fuel with
  | O => acc
  | S fuel' =>
      if 10 <=? u
      then fmtDigits fuel' (u / 10) (String (digitChar (u mod 10)) acc)
      else String (digitChar u) acc
  end.

(** [fmt.Sprintf("%d", v)] for an [int] *)
Definition fmtInt (v : Z) : string :=
  if v <? 0 then String "-"%char (fmtDigits 20 (- v) EmptyString)
  else fmtDigits 20 v EmptyString.

(** [strings.HasPrefix] *)
Fixpoint HasPrefix (s prefix : string) {struct prefix} : bool :=
  match prefix with
  | EmptyString => true
  | String p prefix' =>
      match s with
      | EmptyString => false
      | String c s' => if Ascii.eqb c p then HasPrefix s' prefix' else false
      end
  end.

Fixpoint dropBytes (n : nat) (s : string) : string :=
  match n, s with
  | S n', String _ s' => dropBytes n' s'
  | _, _ => s
  end.

(** [strings.TrimPrefix] *)
Definition TrimPrefix (s prefix : string) : string :=
  if HasPrefix s prefix then dropBytes (String.length prefix) s else s.

(** The digit loop of [strconv.Atoi]: [ch -= '0'] is byte arithmetic,
    so a byte below ['0'] wraps around to a value above 9. *)
Fixpoint parseDigits (s : string) (n : Z) : option Z :=
  match s with
  | EmptyString => Some n
  | String c s' =>
      let ch := (Z.of_nat (nat_of_ascii c) - 48) mod 256 in
      if 9 <? ch then None else parseDigits s' (n * 10 + ch)
  end.

(** [strconv.Atoi] on a 64-bit platform; [None] is a [*NumError]
    (syntax or range). *)
Definition Atoi (s : string) : option Z :=
  match s with
  | EmptyString => None
  | String c rest =>
      let neg := Ascii.eqb c "-"%char in
      let body := if neg || Ascii.eqb c "+"%char then rest else s in
      match body with
      | EmptyString => None
      | _ =>
          match parseDigits body 0 with
          | None => None
          | Some n =>
              let v := if neg then - n else n in
              if (minInt <=? v) && (v <=? maxInt) then Some v else None
          end
      end
  end.

End GoStd.

(** ** store.go *)

Module Store.
Import GoStd.

(** Errors returned by the store. *)
Inductive storeError :=
| ErrInvalidCheckpointID (checkPointID : string)
| ErrAtoi (indexStr : string).

(** [batchBridgeStore]: [data map[int][]byte].  The mutex has no
    sequential content. *)
Record batchBridgeStore := { data : gmap Z (list Byte.byte) }.

Definition newBatchBridgeStore : batchBridgeStore := {| data := ∅ |}.

Definition makeBatchCheckpointID (index : Z) : string :=
  ("batch_" ++ fmtInt index)%string.

Definition parseBatchIndex (checkPointID : string) : Z + storeError :=
  if negb (HasPrefix checkPointID "batch_")
  then inr (ErrInvalidCheckpointID checkPointID)
  else
    let indexStr := TrimPrefix checkPointID "batch_" in
    match Atoi indexStr with
    | Some n => inl n
    | None => inr (ErrAtoi indexStr)
    end.

(** [Get] returns [(data, ok, err)]; a missing key yields the nil
    slice, modelled by [None]. *)
Definition Get (m : batchBridgeStore) (checkPointID : string)
  : option (list Byte.byte) * bool * option storeError :=
  match parseBatchIndex checkPointID with
  | inr err => (None, false, Some err)
  | inl index =>
      match data m !! index with
      | Some d => (Some d, true, None)
      | None => (None, false, None)
      end
  end.

(** [Set] returns the updated store and the error. *)
Definition Set_ (m : batchBridgeStore) (checkPointID : string)
           (checkPoint : list Byte.byte)
  : batchBridgeStore * option storeError :=
  match parseBatchIndex checkPointID with
  | inr err => (m, Some err)
  | inl index => ({| data := <[index := checkPoint]> (data m) |}, None)
  end.

(** A history of [Set] calls applied to a store, oldest first. *)
Definition applySets (m : batchBridgeStore)
           (calls : list (string * list Byte.byte)) : batchBridgeStore :=
  fold_left (fun m c => fst (Set_ m (fst c) (snd c))) calls m.

End Store.

(** ** types.go and node.go *)

Module Batch.
Import Store.

(** What the generic code is instantiated with: the type parameters
    [I] and [O] of [Node[I, O]], Go's [error] values and [any] values,
    the zero values of [I] and [O], the type assertions [v.(I)] and
    [v.(O)], the conversions of an [I] or [O] to [any], and
    [compose.ExtractInterruptInfo]'s boolean (is the error an
    interrupt signal). *)
Class Env := {
  I : Type;
  O : Type;
  E : Type;
  any : Type;
  zeroI : I;
  zeroO : O;
  assertI : any → option I;
  assertO : any → option O;
  anyOfI : I → any;
  anyOfO : O → any;
  ExtractInterruptInfo : E → bool
}.

Section Node.
Context `{env : Env}.

(** types.go: [NodeInterruptState] *)
Record NodeInterruptState := {
  OriginalInputs : list any;
  CompletedResults : gmap Z any;
  InterruptedIndices : list Z;
  TotalCount : Z
}.

(** The three errors [invoke] builds: the two [fmt.Errorf] wrappers
    and [compose.CompositeInterrupt(ctx, nil, state, errs...)]. *)
Inductive batchError :=
| CompileFailed (err : E)
| TaskFailed (index : Z) (err : E)
| CompositeInterrupt (state : NodeInterruptState) (errs : list E).

(** What one [runner.Invoke] receives from [runTask]: the address
    segment [strconv.Itoa(index)] appended to the context, the
    checkpoint ID option, and the input. *)
Record taskCall := {
  callIndex : Z;
  callAddress : string;
  callCheckPointID : string;
  callInput : I
}.

(** [compose.Runnable[I, O]]: [Invoke] returns [(output, err)]. *)
Definition Runnable := taskCall → O * option E.

(** [Compilable[I, O]]: [Compile] receives the checkpoint store
    (the configured compile options are part of the task). *)
Definition Compilable := batchBridgeStore → Runnable + E.

Record Node := {
  name : string;
  innerTask : Compilable;
  maxConcurrency : Z
}.

Record NodeConfig := {
  Name : string;
  InnerTask : Compilable;
  MaxConcurrency : Z
}.

Definition NewBatchNode (config : NodeConfig) : Node :=
  {| name := if String.eqb (Name config) EmptyString then "Node"%string
             else Name config;
     innerTask := InnerTask config;
     maxConcurrency := MaxConcurrency config |}.

(** The three results of [compose.GetInterruptState]. *)
Record interruptCtx := {
  wasInterrupted : bool;
  hasState : bool;
  prevState : option NodeInterruptState
}.

Record taskResult := {
  index : Z;
  output : O;
  err : option E
}.

(** Calls made to the external collaborators, in program order of
    the calling goroutine. *)
Inductive event :=
| EvCompile
| EvInvoke (call : taskCall).

(** [Panic] is a run-time panic; [Return outputs err] has
    [outputs = None] for the nil slice. *)
Inductive result :=
| Panic
| Return (outputs : option (list O)) (err : option batchError).

Record run := { trace : list event; res : result }.

(** *** Slices *)

(** [make([]T, n)] *)
Definition makeSlice {T} (zero : T) (n : Z) : option (list T) :=
  if n <? 0 then None else Some (replicate (Z.to_nat n) zero).

Definition inRange {T} (s : list T) (i : Z) : bool :=
  (0 <=? i) && (i <? Z.of_nat (length s)).

(** [s[i]] *)
Definition getIndex {T} (s : list T) (i : Z) : option T :=
  if inRange s i then s !! Z.to_nat i else None.

(** [s[i] = v] *)
Definition setIndex {T} (s : list T) (i : Z) (v : T) : option (list T) :=
  if inRange s i then Some (<[Z.to_nat i := v]> s) else None.

(** *** Lines 110-152: first run or resume *)

(** [wasInterrupted && hasState && prevState != nil] *)
Definition resumeState (ctx : interruptCtx) : option NodeInterruptState :=
  if wasInterrupted ctx && hasState ctx then prevState ctx else None.

(** Lines 125-129, the loop over [prevState.OriginalInputs]. *)
Fixpoint restoreInputs (originals : list any) (i : Z)
         (effectiveInputs : list I) : option (list I) :=
  match originals with
  | [] => Some effectiveInputs
  | v :: rest =>
      match assertI v with
      | Some typedInput =>
          effectiveInputs' ← setIndex effectiveInputs i typedInput;
          restoreInputs rest (i + 1) effectiveInputs'
      | None => restoreInputs rest (i + 1) effectiveInputs
      end
  end.

(** Lines 146-150, the body of the loop over
    [prevState.CompletedResults]. *)
Definition restoreOne (idx : Z) (result : any)
           (outputs : option (list O)) : option (list O) :=
  outputs ← outputs;
  if idx <? Z.of_nat (length outputs) then
    match assertO result with
    | Some typedResult => setIndex outputs idx typedResult
    | None => Some outputs
    end
  else Some outputs.

(** Lines 145-151.  Go ranges over the map in an unspecified order;
    [restoreCompleted_any_order] below shows that the order
    is immaterial. *)
Definition restoreCompleted (completed : gmap Z any)
           (outputs : list O) : option (list O) :=
  map_fold restoreOne (Some outputs) completed.

(** Lines 134-137 *)
Definition allIndices (inputs : list I) : list Z :=
  Z.of_nat <$> seq 0 (length inputs).

(** Lines 116-152: [(indicesToProcess, effectiveInputs, outputs)]. *)
Definition prepare (ctx : interruptCtx) (inputs : list I)
  : option (list Z * list I * list O) :=
  match resumeState ctx with
  | Some prev =>
      effectiveInputs ← makeSlice zeroI (TotalCount prev);
      effectiveInputs ← restoreInputs (OriginalInputs prev) 0 effectiveInputs;
      outputs ← restoreCompleted (CompletedResults prev)
                (replicate (length effectiveInputs) zeroO);
      Some (InterruptedIndices prev, effectiveInputs, outputs)
  | None =>
      Some (allIndices inputs, inputs, replicate (length inputs) zeroO)
  end.

(** *** Lines 179-221: running the tasks *)

(** [strconv.Itoa] *)
Definition Itoa (i : Z) : string := GoStd.fmtInt i.

Definition mkCall (index : Z) (input : I) : taskCall :=
  {| callIndex := index;
     callAddress := Itoa index;
     callCheckPointID := makeBatchCheckpointID index;
     callInput := input |}.

(** [runTask]: the value sent on [resultCh]. *)
Definition runTask (runner : Runnable) (index : Z) (input : I) : taskResult :=
  let '(output, taskErr) := runner (mkCall index input) in
  {| index := index; output := output; err := taskErr |}.

(** The loop over [indicesToProcess] (lines 199-202 and 207-220):
    [effectiveInputs[idx]] is evaluated by the calling goroutine in
    both branches, then the task is run or spawned.  The second
    component is [None] when an index is out of range. *)
Fixpoint dispatch (runner : Runnable) (effectiveInputs : list I)
         (indices : list Z) : list event * option (list taskResult) :=
  match indices with
  | [] => ([], Some [])
  | idx :: rest =>
      match getIndex effectiveInputs idx with
      | None => ([], None)
      | Some input =>
          let r := runTask runner idx input in
          let '(evs, rs) := dispatch runner effectiveInputs rest in
          (EvInvoke (mkCall idx input) :: evs, cons r <$> rs)
      end
  end.

(** The order in which the results are received from [resultCh].
    Sequentially every [runTask] sends before the next one starts.
    Otherwise the first task runs on the calling goroutine and has
    sent before any goroutine is spawned; the spawned tasks send in
    an order [arrive] that the scheduler decides. *)
Definition arrivalOrder (maxConcurrency : Z)
           (arrive : list taskResult → list taskResult)
           (results : list taskResult) : list taskResult :=
  if maxConcurrency =? 0 then results
  else match results with
       | [] => []
       | first :: spawned => first :: arrive spawned
       end.

(** *** Lines 229-250: collecting *)

Record collector := {
  normalErr : option batchError;
  interruptErrs : list E;
  completedResults : gmap Z any;
  interruptedIndices : list Z;
  outputs : list O
}.

Definition newCollector (outputs : list O) : collector :=
  {| normalErr := None; interruptErrs := []; completedResults := ∅;
     interruptedIndices := []; outputs := outputs |}.

Definition collectOne (c : collector) (r : taskResult) : option collector :=
  match err r with
  | Some e =>
      if ExtractInterruptInfo e then
        Some {| normalErr := normalErr c;
                interruptErrs := interruptErrs c ++ [e];
                completedResults := completedResults c;
                interruptedIndices := interruptedIndices c ++ [index r];
                outputs := outputs c |}
      else
        match normalErr c with
        | None =>
            Some {| normalErr := Some (TaskFailed (index r) e);
                    interruptErrs := interruptErrs c;
                    completedResults := completedResults c;
                    interruptedIndices := interruptedIndices c;
                    outputs := outputs c |}
        | Some _ => Some c
        end
  | None =>
      outputs' ← setIndex (outputs c) (index r) (output r);
      Some {| normalErr := normalErr c;
              interruptErrs := interruptErrs c;
              completedResults :=
                <[index r := anyOfO (output r)]> (completedResults c);
              interruptedIndices := interruptedIndices c;
              outputs := outputs' |}
  end.

Fixpoint collect (c : collector) (arrival : list taskResult)
  : option collector :=
  match arrival with
  | [] => Some c
  | r :: rest => c' ← collectOne c r; collect c' rest
  end.

(** *** Lines 252-274 *)

Definition makeState (effectiveInputs : list I) (c : collector)
  : NodeInterruptState :=
  {| OriginalInputs := anyOfI <$> effectiveInputs;
     CompletedResults := completedResults c;
     InterruptedIndices := interruptedIndices c;
     TotalCount := Z.of_nat (length effectiveInputs) |}.

Definition finish (effectiveInputs : list I) (c : collector) : result :=
  match normalErr c with
  | Some e => Return None (Some e)
  | None =>
      if (0 <? length (interruptErrs c))%nat then
        Return None
          (Some (CompositeInterrupt (makeState effectiveInputs c)
                                    (interruptErrs c)))
      else Return (Some (outputs c)) None
  end.

(** *** [invoke] *)

Definition invoke (b : Node) (ctx : interruptCtx) (inputs : list I)
           (arrive : list taskResult → list taskResult) : run :=
  match prepare ctx inputs with
  | None => {| trace := []; res := Panic |}
  | Some (indicesToProcess, effectiveInputs, outputs) =>
      match innerTask b newBatchBridgeStore with
      | inr err =>
          {| trace := [EvCompile];
             res := Return None (Some (CompileFailed err)) |}
      | inl runner =>
          if (length indicesToProcess =? 0)%nat then
            {| trace := [EvCompile]; res := Return (Some outputs) None |}
          else if maxConcurrency b <? 0 then
            (* make(chan struct{}, b.maxConcurrency) *)
            {| trace := [EvCompile]; res := Panic |}
          else
            let '(evs, results) :=
              dispatch runner effectiveInputs indicesToProcess in
            {| trace := EvCompile :: evs;
               res :=
                 match results with
                 | None => Panic
                 | Some results =>
                     match collect (newCollector outputs)
                             (arrivalOrder (maxConcurrency b) arrive results)
                     with
                     | None => Panic
                     | Some c => finish effectiveInputs c
                     end
                 end |}
      end
  end.

(** [Invoke]: the callbacks aside, it forwards [invoke]'s result and
    returns nil outputs with any error. *)
Definition Invoke (b : Node) (ctx : interruptCtx) (inputs : list I)
           (arrive : list taskResult → list taskResult) : run :=
  let r := invoke b ctx inputs arrive in
  {| trace := trace r;
     res := match res r with
            | Return _ (Some e) => Return None (Some e)
            | other => other
            end |}.

(** The indices of the tasks a run invoked. *)
Definition invokedIndices (t : list event) : list Z :=
  omap (λ ev, match ev with
              | EvInvoke c => Some (callIndex c)
              | EvCompile => None
              end) t.

(** The results received from [resultCh], in the order received,
    for a run that gets as far as collecting. *)
Definition received (b : Node) (ctx : interruptCtx) (inputs : list I)
           (arrive : list taskResult → list taskResult)
  : option (list taskResult) :=
  match prepare ctx inputs with
  | None => None
  | Some (indicesToProcess, effectiveInputs, _) =>
      match innerTask b newBatchBridgeStore with
      | inr _ => None
      | inl runner =>
          if (length indicesToProcess =? 0)%nat then None
          else if maxConcurrency b <? 0 then None
          else
            arrivalOrder (maxConcurrency b) arrive <$>
              snd (dispatch runner effectiveInputs indicesToProcess)
      end
  end.

(** The indices of the successful results of a list. *)
Definition successIndices (rs : list taskResult) : list Z :=
  omap (λ r, match err r with
             | None => Some (index r)
             | Some _ => None
             end) rs.

(** The interrupt signals of a list of results, with their indices. *)
Definition suspensions (rs : list taskResult) : list (Z * E) :=
  omap (λ r, match err r with
             | Some e => if ExtractInterruptInfo e
                         then Some (index r, e) else None
             | None => None
             end) rs.

(** A result is an ordinary failure when it carries an error that is
    not an interrupt signal. *)
Definition ordinaryFailure (r : taskResult) : Prop :=
  ∃ e, err r = Some e ∧ ExtractInterruptInfo e = false.

(** A state is valid when it has the shape that [invoke] gives the
    states it builds on a first run: one stored input per item, every
    stored value of the static type, the interrupted and the
    completed indices distinct positions of the input sequence. *)
Record validState (st : NodeInterruptState) : Prop := {
  valid_total : TotalCount st = Z.of_nat (length (OriginalInputs st));
  valid_inputs : Forall (λ v, is_Some (assertI v)) (OriginalInputs st);
  valid_interrupted :
    Forall (λ i, 0 <= i < TotalCount st) (InterruptedIndices st);
  valid_nodup : NoDup (InterruptedIndices st);
  valid_completed : ∀ i v, CompletedResults st !! i = Some v →
    0 <= i < TotalCount st ∧ is_Some (assertO v) ∧
    i ∉ InterruptedIndices st
}.

End Node.
End Batch.

(** ** node.go, lines 196-221: the goroutines

    The sequential model above fixes what is computed; this one follows
    when the tasks run.  A state records where the loop over
    [indicesToProcess] stands and which tasks are running. *)

Module Sched.

Record state := {
  pending : list Z;     (* indices the loop has not reached *)
  iter : nat;           (* the loop counter [i] *)
  onMain : option Z;    (* [runTask] called by the looping goroutine *)
  waiting : list Z;     (* goroutines spawned, before [sem <- struct{}{}] *)
  holding : list Z;     (* goroutines between the send on [sem] and the
                           deferred receive: they execute [runTask] *)
  finished : list Z     (* tasks whose [runTask] returned, latest first *)
}.

Definition init (indicesToProcess : list Z) : state :=
  {| pending := indicesToProcess; iter := 0; onMain := None;
     waiting := []; holding := []; finished := [] |}.

(** One step of some goroutine, for [maxConcurrency = B]. *)
Inductive step (B : Z) : state → state → Prop :=
| step_sequential idx rest s :
    (* line 201: [runTask(idx, effectiveInputs[idx])] *)
    B = 0 → pending s = idx :: rest → onMain s = None →
    step B s {| pending := rest; iter := S (iter s); onMain := Some idx;
                waiting := waiting s; holding := holding s;
                finished := finished s |}
| step_first idx rest s :
    (* line 211: [i == 0], the task runs on the main goroutine *)
    0 < B → pending s = idx :: rest → iter s = 0%nat → onMain s = None →
    step B s {| pending := rest; iter := S (iter s); onMain := Some idx;
                waiting := waiting s; holding := holding s;
                finished := finished s |}
| step_return idx s :
    (* the synchronous [runTask] returns to the loop *)
    onMain s = Some idx →
    step B s {| pending := pending s; iter := iter s; onMain := None;
                waiting := waiting s; holding := holding s;
                finished := idx :: finished s |}
| step_spawn idx rest s :
    (* line 214: [go func(index, input) {...}(idx, ...)] *)
    0 < B → pending s = idx :: rest → iter s ≠ 0%nat → onMain s = None →
    step B s {| pending := rest; iter := S (iter s); onMain := None;
                waiting := idx :: waiting s; holding := holding s;
                finished := finished s |}
| step_acquire idx w1 w2 s :
    (* line 215: [sem <- struct{}{}] proceeds when the buffer of
       capacity [B] is not full *)
    0 < B → waiting s = w1 ++ idx :: w2 →
    Z.of_nat (length (holding s)) < B →
    step B s {| pending := pending s; iter := iter s; onMain := onMain s;
                waiting := w1 ++ w2; holding := idx :: holding s;
                finished := finished s |}
| step_release idx h1 h2 s :
    (* lines 216-217: [runTask] returns, then the deferred [<-sem] *)
    holding s = h1 ++ idx :: h2 →
    step B s {| pending := pending s; iter := iter s; onMain := onMain s;
                waiting := waiting s; holding := h1 ++ h2;
                finished := idx :: finished s |}.

(** The number of sub-task invocations executing in a state. *)
Definition executing (s : state) : nat :=
  length (option_list (onMain s)) + length (holding s).

(** Every task has run: the state in which [wg.Wait()] returns. *)
Definition done_ (s : state) : Prop :=
  pending s = [] ∧ onMain s = None ∧ waiting s = [] ∧ holding s = [].

(** The invariant of the concurrent branch: the main goroutine runs a
    task only before anything is spawned, and the goroutines holding
    a slot of [sem] are at most [B]. *)
Definition concurrentInv (B : Z) (s : state) : Prop :=
  Z.of_nat (length (holding s)) <= B ∧
  (iter s = 0%nat → onMain s = None) ∧
  ((iter s = 0%nat ∨ onMain s ≠ None) → waiting s = [] ∧ holding s = []).

(** The invariant of the sequential branch: no goroutine is spawned,
    and the tasks started so far are a prefix of the indices, all but
    the running one finished. *)
Definition sequentialInv (ixs : list Z) (s : state) : Prop :=
  waiting s = [] ∧ holding s = [] ∧
  rev (finished s) ++ option_list (onMain s) ++ pending s = ixs.

(** What the concurrent branch keeps true about the order of
    completion: the first index is run by the main goroutine and is the
    first to finish; the tasks finished later, those holding a slot,
    those waiting for one and the indices not yet reached are together
    the other indices. *)
Definition arrivalInv (ixs : list Z) (s : state) : Prop :=
  match ixs with
  | [] => s = init []
  | first :: rest =>
      s = init ixs ∨
      (onMain s = Some first ∧ iter s ≠ 0%nat ∧ pending s = rest ∧
       finished s = [] ∧ waiting s = [] ∧ holding s = []) ∨
      (onMain s = None ∧ iter s ≠ 0%nat ∧
       ∃ later, finished s = later ++ [first] ∧
                later ++ holding s ++ waiting s ++ pending s ≡ₚ rest)
  end.

(** A reachable state in which two spawned tasks run while a third
    waits for a slot, with [maxConcurrency = 2]. *)
Definition twoRunning : state :=
  {| pending := [4]; iter := 4; onMain := None;
     waiting := [3]; holding := [2; 1]; finished := [0] |}.

(** The state after the first task has run on the main goroutine, for
    three indices. *)
Definition afterFirst : state :=
  {| pending := [1; 2]; iter := 1; onMain := None;
     waiting := []; holding := []; finished := [0] |}.

(** The end of a run over three indices in which the third task
    finished before the second. *)
Definition allDone : state :=
  {| pending := []; iter := 3; onMain := None;
     waiting := []; holding := []; finished := [1; 2; 0] |}.

End Sched.

(** ** A concrete instantiation: document review

    Inputs are document numbers, outputs are review comments; a task
    either succeeds, fails, or asks for approval (an interrupt). *)

Module Demo.
Import Batch.

Inductive demoAny :=
| AnyInt (z : Z)
| AnyStr (s : string)
| AnyNil.

Inductive demoErr :=
| ValidationFailed
| GraphInvalid
| NeedsApproval.

#[global] Instance demoEnv : Env := {|
  I := Z;
  O := string;
  E := demoErr;
  any := demoAny;
  zeroI := 0;
  zeroO := EmptyString;
  assertI := λ v, match v with AnyInt z => Some z | _ => None end;
  assertO := λ v, match v with AnyStr s => Some s | _ => None end;
  anyOfI := AnyInt;
  anyOfO := AnyStr;
  ExtractInterruptInfo := λ e, match e with NeedsApproval => true | _ => false end
|}.

(** Documents 0 and 2 need approval, document 7 fails validation,
    the others are approved at once. *)
Definition review : @Runnable demoEnv := λ c,
  if (callInput c =? 0) || (callInput c =? 2) then (EmptyString, Some NeedsApproval)
  else if callInput c =? 7 then (EmptyString, Some ValidationFailed)
  else (("ok:" ++ callCheckPointID c)%string, None).

(** The same workflow once the approvals have been given. *)
Definition approved : @Runnable demoEnv := λ c,
  (("approved:" ++ callAddress c)%string, None).

Definition reviewer (maxConcurrency : Z) : @Node demoEnv :=
  NewBatchNode {| Name := EmptyString; InnerTask := λ _, inl review;
                  MaxConcurrency := maxConcurrency |}.

Definition approver (maxConcurrency : Z) : @Node demoEnv :=
  NewBatchNode {| Name := "Approver"; InnerTask := λ _, inl approved;
                  MaxConcurrency := maxConcurrency |}.

Definition broken : @Node demoEnv :=
  NewBatchNode {| Name := "Broken"; InnerTask := λ _, inr GraphInvalid;
                  MaxConcurrency := 0 |}.

Definition firstRun : @interruptCtx demoEnv :=
  {| wasInterrupted := false; hasState := false; prevState := None |}.

Definition resumeWith (st : @NodeInterruptState demoEnv) : @interruptCtx demoEnv :=
  {| wasInterrupted := true; hasState := true; prevState := Some st |}.

(** The state of the first run of [reviewer] on documents 0 to 3:
    documents 0 and 2 wait for approval, 1 and 3 are done. *)
Definition afterFirstRun : @NodeInterruptState demoEnv :=
  {| OriginalInputs := [AnyInt 0; AnyInt 1; AnyInt 2; AnyInt 3];
     CompletedResults :=
       <[1 := AnyStr "ok:batch_1"]> {[3 := AnyStr "ok:batch_3"]};
     InterruptedIndices := [0; 2];
     TotalCount := 4 |}.



(** A state with a completed result stored under a negative key. *)
Definition negativeKey : @NodeInterruptState demoEnv :=
  {| OriginalInputs := [AnyInt 5];
     CompletedResults := {[(-1) := AnyStr "stray"]};
     InterruptedIndices := [];
     TotalCount := 1 |}.

(** Two documents, the first waiting for approval, the second done. *)
Definition oneWaiting : @NodeInterruptState demoEnv :=
  {| OriginalInputs := [AnyInt 0; AnyInt 1];
     CompletedResults := {[1 := AnyStr "ok:batch_1"]};
     InterruptedIndices := [0];
     TotalCount := 2 |}.

(** What [invoke] builds when [oneWaiting] is resumed and the first
    document still waits. *)
Definition stillWaiting : @NodeInterruptState demoEnv :=
  {| OriginalInputs := [AnyInt 0; AnyInt 1];
     CompletedResults := ∅;
     InterruptedIndices := [0];
     TotalCount := 2 |}.

(** A state that lists an interrupted index beyond its two inputs. *)
Definition outOfRange : @NodeInterruptState demoEnv :=
  {| OriginalInputs := [AnyInt 0; AnyInt 1];
     CompletedResults := ∅;
     InterruptedIndices := [1; 5; 0];
     TotalCount := 2 |}.

(** Results arrive in the order the tasks were spawned, or in the
    reverse order. *)
Definition inOrder : list (@taskResult demoEnv) → list (@taskResult demoEnv) := id.
Definition reversed : list (@taskResult demoEnv) → list (@taskResult demoEnv) := @rev _.

End Demo.

(** ** options.go, and the option lists of node.go *)

Module Options.
Section Options.

(** [compose.Option] is opaque here, but for the one option that
    [runTask] builds itself. *)
Context {composeOption : Type} (WithCheckPointID : string → composeOption).

Record options := { innerOptions : list composeOption }.

(** [Option], a function on a pointer to [options]: the update in
    place is the function from the old to the new value. *)
Definition Option_ : Type := options → options.

Definition WithInnerOptions (opts : list composeOption) : Option_ :=
  λ o, {| innerOptions := innerOptions o ++ opts |}.

Definition applyBatchOptions (opts : list Option_) : options :=
  fold_left (λ o opt, opt o) opts {| innerOptions := [] |}.

(** node.go, lines 188-190: the options of one [runner.Invoke]. *)
Definition invokeOpts (batchOpts : options) (index : Z) : list composeOption :=
  WithCheckPointID (Store.makeBatchCheckpointID index) :: innerOptions batchOpts.

End Options.
End Options.

(** ** node.go: how outcomes compare *)

Module NodeApi.
Import Store Batch.
Section NodeApi.
Context `{env : Env}.

(** Two results are the same up to the order in which interrupt
    signals were received: equal outputs, equal ordinary outcome class,
    or composite interrupts whose states agree on the inputs, the
    completed results and the count and hold the same interrupted
    indices and signals in some order. *)
Definition sameOutcome (r1 r2 : result) : Prop :=
  match r1, r2 with
  | Panic, Panic => True
  | Return (Some o1) None, Return (Some o2) None => o1 = o2
  | Return None (Some (CompileFailed e1)), Return None (Some (CompileFailed e2)) =>
      e1 = e2
  | Return None (Some (TaskFailed _ _)), Return None (Some (TaskFailed _ _)) =>
      True
  | Return None (Some (CompositeInterrupt s1 e1)),
    Return None (Some (CompositeInterrupt s2 e2)) =>
      OriginalInputs s1 = OriginalInputs s2 ∧
      CompletedResults s1 = CompletedResults s2 ∧
      TotalCount s1 = TotalCount s2 ∧
      InterruptedIndices s1 ≡ₚ InterruptedIndices s2 ∧
      e1 ≡ₚ e2
  | _, _ => False
  end.

(** What a result says about the results received. *)
Definition reflects (r : result) (arrival : list taskResult) : Prop :=
  match r with
  | Return (Some _) None => Forall (λ t, err t = None) arrival
  | Return None (Some (TaskFailed i e)) =>
      ∃ t, t ∈ arrival ∧ index t = i ∧ err t = Some e ∧
           ExtractInterruptInfo e = false
  | Return None (Some (CompositeInterrupt st errs)) =>
      Forall (λ t, ¬ ordinaryFailure t) arrival ∧
      errs ≠ [] ∧
      errs = (suspensions arrival).*2 ∧
      InterruptedIndices st = (suspensions arrival).*1
  | _ => False
  end.

(** The output of the task of index [k], as a function of the index:
    what [runner] returns on the [k]-th effective input. *)
Definition outputOf (runner : Runnable) (eff : list I) (k : Z) : O :=
  match getIndex eff k with
  | Some x => fst (runner (mkCall k x))
  | None => zeroO
  end.

End NodeApi.
End NodeApi.

(** ** The goroutines: a measure of the work left *)

Module SchedMeasure.
Import Sched.

(** Every step moves one index one stage further: not reached, waiting
    for a slot, running, finished. *)
Definition workLeft (s : state) : nat :=
  3 * length (pending s) + 2 * length (waiting s)
  + length (holding s) + length (option_list (onMain s)).

End SchedMeasure.

(** ** main.go: the helpers of the example program *)

Module Example.
Import GoStd.

(** [memoryCheckpointStore]: [data map[string][]byte] *)
Record memoryCheckpointStore := { data : gmap string (list Byte.byte) }.

Definition newMemoryCheckpointStore : memoryCheckpointStore := {| data := ∅ |}.

Definition Get (m : memoryCheckpointStore) (id : string)
  : option (list Byte.byte) * bool * option Store.storeError :=
  match data m !! id with
  | Some d => (Some d, true, None)
  | None => (None, false, None)
  end.

Definition Set_ (m : memoryCheckpointStore) (id : string) (d : list Byte.byte)
  : memoryCheckpointStore * option Store.storeError :=
  ({| data := <[id := d]> (data m) |}, None).

Record ReviewRequest := {
  DocumentID : string;
  Content : string;
  Priority : string
}.

(** The zero padding of [%03d]: [fmt] writes digits until the width is
    reached, one less when a sign is written. *)
Fixpoint zeros (n : nat) (s : string) : string :=
  match n with
  | O => s
  | S n' => String "0"%char (zeros n' s)
  end.

Definition fmtInt03 (v : Z) : string :=
  let digits := fmtDigits 20 (Z.abs v) EmptyString in
  if v <? 0
  then String "-"%char (zeros (2 - String.length digits) digits)
  else zeros (3 - String.length digits) digits.

Definition priorities : list string := ["high"; "medium"; "low"]%string.

(** The body of the loop of [createSampleDocuments], for one [i]. *)
Definition sampleDocument (i : Z) : ReviewRequest :=
  {| DocumentID := String.append "DOC-" (fmtInt03 (i + 1));
     Content :=
       String.append "Document content for review #"
         (String.append (fmtInt (i + 1))
                        ". This is a sample compliance document.");
     Priority :=
       default EmptyString
         (priorities !! Z.to_nat (i mod Z.of_nat (length priorities))) |}.

(** [createSampleDocuments]; [make] panics on a negative count. *)
Definition createSampleDocuments (count : Z) : option (list ReviewRequest) :=
  if count <? 0 then None
  else Some ((λ i, sampleDocument (Z.of_nat i)) <$> seq 0 (Z.to_nat count)).

Section Reduce.

(** [float64] and [time.Time] values are opaque: the score arithmetic
    is taken as given. *)
Context {float64 Time : Type}.
Context (fzero : float64) (fadd fdiv : float64 → float64 → float64)
        (float64_of_int : Z → float64).

Record ReviewResult := {
  rDocumentID : string;
  Approved : bool;
  Score : float64;
  Comments : string;
  ReviewedAt : Time
}.

Record ReviewReport := {
  TotalDocuments : Z;
  ApprovedCount : Z;
  RejectedCount : Z;
  AverageScore : float64;
  HighPriorityPass : Z;
  Results : list ReviewResult;
  GeneratedAt : Time
}.

(** One iteration of the loop of the reduce node. *)
Definition reduceOne (acc : float64 * ReviewReport) (r : ReviewResult)
  : float64 * ReviewReport :=
  let '(totalScore, report) := acc in
  (fadd totalScore (Score r),
   if Approved r
   then {| TotalDocuments := TotalDocuments report;
           ApprovedCount := ApprovedCount report + 1;
           RejectedCount := RejectedCount report;
           AverageScore := AverageScore report;
           HighPriorityPass := HighPriorityPass report;
           Results := Results report;
           GeneratedAt := GeneratedAt report |}
   else {| TotalDocuments := TotalDocuments report;
           ApprovedCount := ApprovedCount report;
           RejectedCount := RejectedCount report + 1;
           AverageScore := AverageScore report;
           HighPriorityPass := HighPriorityPass report;
           Results := Results report;
           GeneratedAt := GeneratedAt report |}).

(** The reduce node of [runParentGraphWithReduce]; [now] is the value of
    [time.Now()]. *)
Definition reduce (now : Time) (results : list ReviewResult) : ReviewReport :=
  let report :=
    {| TotalDocuments := Z.of_nat (length results);
       ApprovedCount := 0;
       RejectedCount := 0;
       AverageScore := fzero;
       HighPriorityPass := 0;
       Results := results;
       GeneratedAt := now |} in
  let '(totalScore, report) := fold_left reduceOne results (fzero, report) in
  if (0 <? length results)%nat
  then {| TotalDocuments := TotalDocuments report;
          ApprovedCount := ApprovedCount report;
          RejectedCount := RejectedCount report;
          AverageScore :=
            fdiv totalScore (float64_of_int (Z.of_nat (length results)));
          HighPriorityPass := HighPriorityPass report;
          Results := Results report;
          GeneratedAt := GeneratedAt report |}
  else report.

End Reduce.

End Example.

Section StoreFacts.
Import GoStd Store.

Lemma parseDigits_fmtDigits fuel : ∀ u acc,
  0 <= u < 10 ^ Z.of_nat fuel →
  parseDigits (fmtDigits fuel u acc) 0 = parseDigits acc u.
Proof.
  induction fuel as [|fuel IH]; intros u acc Hu.
  - simpl in Hu. assert (u = 0) by lia. subst. reflexivity.
  - cbn [fmtDigits]. destruct (10 <=? u) eqn:E.
    + apply Z.leb_le in E.
      rewrite IH.
      * cbn [parseDigits]. unfold digitChar.
        rewrite nat_ascii_embedding.
        2:{ pose proof (Z.mod_pos_bound u 10). lia. }
        pose proof (Z.mod_pos_bound u 10 ltac:(lia)).
        rewrite Z2Nat.id by lia.
        replace (48 + u mod 10 - 48) with (u mod 10) by lia.
        rewrite (Z.mod_small (u mod 10) 256) by lia.
        destruct (9 <? u mod 10) eqn:E9; [apply Z.ltb_lt in E9; lia|].
        f_equal. pose proof (Z.div_mod u 10). lia.
      * rewrite Nat2Z.inj_succ, Z.pow_succ_r in Hu by lia.
        split; [apply Z.div_pos; lia|].
        apply Z.div_lt_upper_bound; lia.
    + apply Z.leb_gt in E.
      cbn [parseDigits]. unfold digitChar.
      rewrite nat_ascii_embedding by lia.
      rewrite Z2Nat.id by lia.
      replace (48 + u - 48) with u by lia.
      rewrite (Z.mod_small u 256) by lia.
      destruct (9 <? u) eqn:E9; [apply Z.ltb_lt in E9; lia|].
      reflexivity.
Qed.

Lemma digitChar_code d : 0 <= d <= 9 →
  Z.of_nat (nat_of_ascii (digitChar d)) = 48 + d.
Proof.
  intros Hd. unfold digitChar.
  rewrite nat_ascii_embedding by lia. lia.
Qed.

Lemma digitChar_not_sign d : 0 <= d <= 9 →
  Ascii.eqb (digitChar d) "-" = false ∧ Ascii.eqb (digitChar d) "+" = false.
Proof.
  intros Hd. pose proof (digitChar_code d Hd) as Hc.
  assert (Z.of_nat (nat_of_ascii "-") = 45) as Hm by reflexivity.
  assert (Z.of_nat (nat_of_ascii "+") = 43) as Hp by reflexivity.
  split; apply Ascii.eqb_neq; intros E; rewrite E in Hc; lia.
Qed.

Lemma fmtDigits_head fuel u acc : 0 <= u →
  ∃ d rest, 0 <= d <= 9 ∧ fmtDigits (S fuel) u acc = String (digitChar d) rest.
Proof.
  revert u acc. induction fuel as [|fuel IH]; intros u acc Hu.
  - cbn [fmtDigits]. destruct (10 <=? u) eqn:E.
    + exists (u mod 10), acc. split; [|reflexivity].
      pose proof (Z.mod_pos_bound u 10). lia.
    + apply Z.leb_gt in E. exists u, acc. split; [lia|reflexivity].
  - remember (S fuel) as f. cbn [fmtDigits]. destruct (10 <=? u) eqn:E.
    + subst f. apply IH. apply Z.div_pos; lia.
    + apply Z.leb_gt in E. exists u, acc. split; [lia|reflexivity].
Qed.

Lemma Atoi_fmtInt i : 0 <= i <= maxInt → Atoi (fmtInt i) = Some i.
Proof.
  intros Hi. unfold fmtInt.
  destruct (i <? 0) eqn:E; [apply Z.ltb_lt in E; lia|].
  pose proof (parseDigits_fmtDigits 20 i EmptyString) as Hp.
  destruct (fmtDigits_head 19 i EmptyString) as (d & rest & Hd & Heq); [lia|].
  rewrite Heq in *. unfold Atoi.
  destruct (digitChar_not_sign d Hd) as [-> ->]. cbn [orb].
  rewrite Hp; [|unfold maxInt in Hi; lia].
  cbn [parseDigits].
  unfold minInt, maxInt in *.
  destruct (- 2 ^ 63 <=? i) eqn:E1; [|apply Z.leb_gt in E1; lia].
  destruct (i <=? 2 ^ 63 - 1) eqn:E2; [|apply Z.leb_gt in E2; lia].
  reflexivity.
Qed.

Lemma parseBatchIndex_make i : 0 <= i <= maxInt →
  parseBatchIndex (makeBatchCheckpointID i) = inl i.
Proof.
  intros Hi. unfold parseBatchIndex, makeBatchCheckpointID.
  assert (HasPrefix (String.append "batch_" (fmtInt i)) "batch_" = true)
    as -> by reflexivity.
  assert (TrimPrefix (String.append "batch_" (fmtInt i)) "batch_" = fmtInt i)
    as -> by reflexivity.
  cbn [negb]. by rewrite Atoi_fmtInt.
Qed.

Lemma applySets_lookup_None calls : ∀ m i,
  data m !! i = None →
  (∀ c, c ∈ calls → parseBatchIndex (fst c) ≠ inl i) →
  data (applySets m calls) !! i = None.
Proof.
  induction calls as [|c calls IH]; intros m i Hm Hc; [done|].
  cbn. apply IH.
  - unfold Set_. destruct (parseBatchIndex (fst c)) as [j|e] eqn:E; [|done].
    cbn. rewrite lookup_insert_ne; [done|].
    intros ->. eapply Hc; [|exact E]. left.
  - intros c' Hin. apply Hc. by right.
Qed.

End StoreFacts.

(** C9. Checkpoint-key round trip: for every non-negative [int] index
    [i], [parseBatchIndex (makeBatchCheckpointID i)] returns [(i, nil)];
    hence a [Set] under that checkpoint ID succeeds and a following
    [Get] with the same ID returns the stored bytes with [found = true]
    and no error, while [Get] for an index that no [Set] of the store's
    history addressed returns [found = false] and no error. *)
Theorem checkpoint_key_round_trip (i : Z) :
  0 <= i <= GoStd.maxInt →
  Store.parseBatchIndex (Store.makeBatchCheckpointID i) = inl i ∧
  (∀ (m : Store.batchBridgeStore) (b : list Byte.byte),
      snd (Store.Set_ m (Store.makeBatchCheckpointID i) b) = None ∧
      Store.Get (fst (Store.Set_ m (Store.makeBatchCheckpointID i) b))
                (Store.makeBatchCheckpointID i) = (Some b, true, None)) ∧
  (∀ calls : list (string * list Byte.byte),
      (∀ c, c ∈ calls → Store.parseBatchIndex (fst c) ≠ inl i) →
      Store.Get (Store.applySets Store.newBatchBridgeStore calls)
                (Store.makeBatchCheckpointID i) = (None, false, None)).
Proof.
  intros Hi. pose proof (parseBatchIndex_make i Hi) as Hp.
  split; [exact Hp|]. split.
  - intros m b. unfold Store.Set_, Store.Get. rewrite Hp.
    cbn [fst snd Store.data]. by rewrite lookup_insert_eq.
  - intros calls Hc. unfold Store.Get. rewrite Hp.
    rewrite applySets_lookup_None; [done| |done].
    apply lookup_empty.
Qed.

Lemma checkpoint_key_round_trip_witness :
  Store.parseBatchIndex (Store.makeBatchCheckpointID 42) = inl 42 ∧
  (∀ (m : Store.batchBridgeStore) (b : list Byte.byte),
      snd (Store.Set_ m (Store.makeBatchCheckpointID 42) b) = None ∧
      Store.Get (fst (Store.Set_ m (Store.makeBatchCheckpointID 42) b))
                (Store.makeBatchCheckpointID 42) = (Some b, true, None)) ∧
  (∀ calls : list (string * list Byte.byte),
      (∀ c, c ∈ calls → Store.parseBatchIndex (fst c) ≠ inl 42) →
      Store.Get (Store.applySets Store.newBatchBridgeStore calls)
                (Store.makeBatchCheckpointID 42) = (None, false, None)).
Proof.
  apply (checkpoint_key_round_trip 42). unfold GoStd.maxInt. lia.
Defined.

(** * Facts about node.go *)

Section NodeFacts.
Import Batch.
Context `{env : Env}.

(** ** Slices *)

Lemma inRange_spec {T} (s : list T) (i : Z) :
  inRange s i = true ↔ 0 <= i < Z.of_nat (length s).
Proof. unfold inRange. rewrite andb_true_iff, Z.leb_le, Z.ltb_lt. tauto. Qed.

Lemma inRange_false {T} (s : list T) (i : Z) :
  inRange s i = false ↔ ¬ (0 <= i < Z.of_nat (length s)).
Proof. rewrite <- inRange_spec. destruct (inRange s i); intuition congruence. Qed.

Lemma setIndex_Some {T} (s s' : list T) i v :
  setIndex s i v = Some s' ↔
  0 <= i < Z.of_nat (length s) ∧ s' = <[Z.to_nat i := v]> s.
Proof.
  unfold setIndex. destruct (inRange s i) eqn:R.
  - apply inRange_spec in R. intuition congruence.
  - apply inRange_false in R. intuition congruence.
Qed.

Lemma setIndex_in_range {T} (s : list T) i v :
  0 <= i < Z.of_nat (length s) →
  setIndex s i v = Some (<[Z.to_nat i := v]> s).
Proof. intros. by apply setIndex_Some. Qed.

Lemma setIndex_None {T} (s : list T) i v :
  setIndex s i v = None ↔ ¬ (0 <= i < Z.of_nat (length s)).
Proof.
  unfold setIndex. destruct (inRange s i) eqn:R.
  - apply inRange_spec in R. intuition congruence.
  - apply inRange_false in R. intuition congruence.
Qed.

Lemma getIndex_Some {T} (s : list T) i x :
  getIndex s i = Some x ↔
  0 <= i < Z.of_nat (length s) ∧ s !! Z.to_nat i = Some x.
Proof.
  unfold getIndex. destruct (inRange s i) eqn:R.
  - apply inRange_spec in R. intuition congruence.
  - apply inRange_false in R. intuition congruence.
Qed.

Lemma getIndex_of_nat {T} (s : list T) (i : nat) x :
  s !! i = Some x → getIndex s (Z.of_nat i) = Some x.
Proof.
  intros H. apply getIndex_Some. rewrite Nat2Z.id. split; [|done].
  apply lookup_lt_Some in H. lia.
Qed.

Lemma getIndex_in_range {T} (s : list T) i :
  0 <= i < Z.of_nat (length s) → is_Some (getIndex s i).
Proof.
  intros H. destruct (lookup_lt_is_Some_2 s (Z.to_nat i)) as [x Hx]; [lia|].
  exists x. by apply getIndex_Some.
Qed.

(** ** Running the tasks *)

Lemma index_runTask (runner : Runnable) i x : index (runTask runner i x) = i.
Proof. unfold runTask. by destruct (runner (mkCall i x)). Qed.

Lemma output_runTask (runner : Runnable) i x :
  output (runTask runner i x) = fst (runner (mkCall i x)).
Proof. unfold runTask. by destruct (runner (mkCall i x)). Qed.

Lemma err_runTask (runner : Runnable) i x :
  err (runTask runner i x) = snd (runner (mkCall i x)).
Proof. unfold runTask. by destruct (runner (mkCall i x)). Qed.

(** When every index is in range, exactly the listed indices are
    invoked, each on its effective input. *)
Lemma dispatch_in_range (runner : Runnable) (eff : list I) indices :
  Forall (λ i, 0 <= i < Z.of_nat (length eff)) indices →
  ∃ evs rs,
    dispatch runner eff indices = (evs, Some rs) ∧
    invokedIndices evs = indices ∧
    index <$> rs = indices ∧
    Forall (λ r, ∃ x, getIndex eff (index r) = Some x ∧
                      r = runTask runner (index r) x) rs.
Proof.
  induction 1 as [|i indices Hi _ IH].
  - exists [], []. by repeat split.
  - destruct IH as (evs & rs & Hd & Hev & Hix & Hrs).
    destruct (getIndex_in_range eff i Hi) as [x Hx].
    exists (EvInvoke (mkCall i x) :: evs), (runTask runner i x :: rs).
    cbn [dispatch]. rewrite Hx, Hd. split; [done|].
    split; [cbn; by rewrite <- Hev|].
    split; [cbn; by rewrite index_runTask, Hix|].
    constructor; [|done].
    exists x. by rewrite index_runTask.
Qed.

(** Whatever happens, only listed indices are invoked. *)
Lemma dispatch_invoked_subset (runner : Runnable) (eff : list I) indices :
  invokedIndices (fst (dispatch runner eff indices)) `prefix_of` indices.
Proof.
  induction indices as [|i indices IH]; [done|].
  cbn [dispatch]. destruct (getIndex eff i); [|apply prefix_nil].
  destruct (dispatch runner eff indices) as [evs rs]. cbn in *.
  by apply prefix_cons.
Qed.

Lemma allIndices_lookup (inputs : list I) (i : nat) :
  (i < length inputs)%nat → allIndices inputs !! i = Some (Z.of_nat i).
Proof.
  intros H. unfold allIndices. rewrite list_lookup_fmap.
  by rewrite lookup_seq_lt.
Qed.

Lemma allIndices_elem (inputs : list I) (i : Z) :
  i ∈ allIndices inputs ↔ 0 <= i < Z.of_nat (length inputs).
Proof.
  unfold allIndices. rewrite list_elem_of_fmap. split.
  - intros (n & -> & Hn). apply elem_of_seq in Hn. lia.
  - intros H. exists (Z.to_nat i). split; [lia|]. apply elem_of_seq. lia.
Qed.

Lemma allIndices_in_range (inputs : list I) :
  Forall (λ i, 0 <= i < Z.of_nat (length inputs)) (allIndices inputs).
Proof. apply Forall_forall. intros i. apply allIndices_elem. Qed.

Lemma allIndices_length (inputs : list I) :
  length (allIndices inputs) = length inputs.
Proof. unfold allIndices. by rewrite length_fmap, length_seq. Qed.

(** ** The arrival order is a permutation *)

Lemma arrivalOrder_perm B arrive (results : list taskResult) :
  (∀ l, arrive l ≡ₚ l) → arrivalOrder B arrive results ≡ₚ results.
Proof.
  intros Ha. unfold arrivalOrder. destruct (B =? 0); [done|].
  destruct results; [done|]. by rewrite Ha.
Qed.

(** ** Collecting *)

Lemma collect_app c l1 l2 :
  collect c (l1 ++ l2) = collect c l1 ≫= λ c', collect c' l2.
Proof.
  revert c. induction l1 as [|r l1 IH]; intros c; [done|].
  cbn. destruct (collectOne c r) as [c'|]; cbn; [apply IH|done].
Qed.

Lemma collectOne_length c r c' :
  collectOne c r = Some c' → length (outputs c') = length (outputs c).
Proof.
  unfold collectOne. intros H.
  destruct (err r) as [e|].
  - destruct (ExtractInterruptInfo e); [by simplify_eq|].
    destruct (normalErr c); by simplify_eq.
  - destruct (setIndex (outputs c) (index r) (output r)) as [o|] eqn:S;
      [|done].
    cbn in H. simplify_eq. cbn.
    apply setIndex_Some in S as [_ ->]. by rewrite length_insert.
Qed.

Lemma collectOne_total c r :
  0 <= index r < Z.of_nat (length (outputs c)) → is_Some (collectOne c r).
Proof.
  intros Hr. unfold collectOne. destruct (err r) as [e|].
  - destruct (ExtractInterruptInfo e); [done|]. by destruct (normalErr c).
  - by rewrite setIndex_in_range.
Qed.

(** Collection never panics on results whose indices are in range. *)
Lemma collect_total arrival : ∀ c,
  Forall (λ r, 0 <= index r < Z.of_nat (length (outputs c))) arrival →
  ∃ c', collect c arrival = Some c' ∧
        length (outputs c') = length (outputs c).
Proof.
  induction arrival as [|r arrival IH]; intros c Hall; [by exists c|].
  apply Forall_cons in Hall as [Hr Hall].
  destruct (collectOne_total c r Hr) as [c1 H1].
  pose proof (collectOne_length _ _ _ H1) as Hlen.
  destruct (IH c1) as (c' & Hc' & Hlen'); [by rewrite Hlen|].
  exists c'. cbn. rewrite H1. cbn. split; [done|congruence].
Qed.

(** Once set, [normalErr] is kept: the first ordinary failure wins. *)
Lemma collect_normalErr_sticky arrival : ∀ c c' e,
  normalErr c = Some e → collect c arrival = Some c' →
  normalErr c' = Some e.
Proof.
  induction arrival as [|r arrival IH]; intros c c' e He Hc.
  - cbn in Hc. by simplify_eq.
  - cbn in Hc. destruct (collectOne c r) as [c1|] eqn:H1; [|done].
    cbn in Hc. eapply IH; [|exact Hc].
    unfold collectOne in H1. destruct (err r) as [e'|].
    + destruct (ExtractInterruptInfo e'); [by simplify_eq|].
      rewrite He in H1. by simplify_eq.
    + destruct (setIndex _ _ _); [|done]. cbn in H1. by simplify_eq.
Qed.

Lemma collect_no_failure arrival : ∀ c c',
  Forall (λ r, ¬ ordinaryFailure r) arrival →
  collect c arrival = Some c' → normalErr c' = normalErr c.
Proof.
  induction arrival as [|r arrival IH]; intros c c' Hall Hc.
  - cbn in Hc. by simplify_eq.
  - apply Forall_cons in Hall as [Hr Hall].
    cbn in Hc. destruct (collectOne c r) as [c1|] eqn:H1; [|done].
    cbn in Hc. rewrite (IH _ _ Hall Hc).
    unfold collectOne in H1. destruct (err r) as [e'|] eqn:Er.
    + destruct (ExtractInterruptInfo e') eqn:Ex; [by simplify_eq|].
      destruct Hr. by exists e'.
    + destruct (setIndex _ _ _); [|done]. cbn in H1. by simplify_eq.
Qed.

End NodeFacts.

Section RestoreFacts.
Import Batch.
Context `{env : Env}.

(** ** Restoring the inputs (lines 124-129) *)

Lemma restoreInputs_length originals : ∀ i eff eff',
  restoreInputs originals i eff = Some eff' → length eff' = length eff.
Proof.
  induction originals as [|v rest IH]; intros i eff eff' H.
  - cbn in H. by simplify_eq.
  - cbn in H. destruct (assertI v) as [x|]; [|by eapply IH].
    destruct (setIndex eff i x) as [eff1|] eqn:S; [|done]. cbn in H.
    apply setIndex_Some in S as [_ ->].
    rewrite (IH _ _ _ H). by rewrite length_insert.
Qed.

(** With no more stored inputs than slots, restoring succeeds; slot
    [i + k] receives the [k]-th stored input when it converts to [I]
    and keeps its old value otherwise. *)
Lemma restoreInputs_spec originals : ∀ i eff,
  0 <= i → i + Z.of_nat (length originals) <= Z.of_nat (length eff) →
  ∃ eff', restoreInputs originals i eff = Some eff' ∧
    length eff' = length eff ∧
    (∀ k : nat, (Z.of_nat k < i) → eff' !! k = eff !! k) ∧
    (∀ (k : nat) v, originals !! k = Some v →
       eff' !! (Z.to_nat i + k)%nat =
       match assertI v with
       | Some x => Some x
       | None => eff !! (Z.to_nat i + k)%nat
       end).
Proof.
  induction originals as [|v rest IH]; intros i eff Hi Hlen.
  - exists eff. by repeat split.
  - cbn [length] in Hlen. cbn [restoreInputs].
    destruct (assertI v) as [x|] eqn:Hv.
    + rewrite setIndex_in_range by lia. cbn.
      destruct (IH (i + 1) (<[Z.to_nat i := x]> eff)) as (eff' & H & Hl & Hlo & Hhi);
        [lia|rewrite length_insert; lia|].
      exists eff'. split; [done|]. rewrite Hl, length_insert.
      split; [done|]. split.
      * intros k Hk. rewrite Hlo by lia.
        apply list_lookup_insert_ne. lia.
      * intros [|k] w Hw.
        -- cbn in Hw. simplify_eq. rewrite Hv, Nat.add_0_r.
           replace (Z.to_nat i) with (Z.to_nat (Z.of_nat (Z.to_nat i))) at 1
             by (by rewrite Nat2Z.id).
           rewrite Nat2Z.id, Hlo by lia.
           apply list_lookup_insert_eq. lia.
        -- cbn in Hw. specialize (Hhi k w Hw).
           replace (Z.to_nat i + S k)%nat with (Z.to_nat (i + 1) + k)%nat by lia.
           rewrite Hhi. destruct (assertI w); [done|].
           apply list_lookup_insert_ne. lia.
    + destruct (IH (i + 1) eff) as (eff' & H & Hl & Hlo & Hhi); [lia|lia|].
      exists eff'. split; [done|]. split; [done|]. split.
      * intros k Hk. apply Hlo. lia.
      * intros [|k] w Hw.
        -- cbn in Hw. simplify_eq. rewrite Hv, Nat.add_0_r.
           apply Hlo. lia.
        -- cbn in Hw. specialize (Hhi k w Hw).
           replace (Z.to_nat i + S k)%nat with (Z.to_nat (i + 1) + k)%nat by lia.
           done.
Qed.

(** ** Restoring the completed results (lines 144-152) *)

Lemma restoreOne_None idx result : restoreOne idx result None = None.
Proof. done. Qed.

Lemma restoreOne_length idx result outs outs' :
  restoreOne idx result (Some outs) = Some outs' →
  length outs' = length outs.
Proof.
  unfold restoreOne. cbn. destruct (idx <? Z.of_nat (length outs)).
  - destruct (assertO result) as [o|]; [|by intros [= <-]].
    intros S. apply setIndex_Some in S as [_ ->]. by rewrite length_insert.
  - by intros [= <-].
Qed.

(** The effect of one loop iteration on an output slice. *)
Lemma restoreOne_Some idx result outs :
  restoreOne idx result (Some outs) =
  match assertO result with
  | Some o =>
      if idx <? 0 then None
      else if idx <? Z.of_nat (length outs)
           then Some (<[Z.to_nat idx := o]> outs)
           else Some outs
  | None => Some outs
  end.
Proof.
  unfold restoreOne. cbn.
  destruct (idx <? Z.of_nat (length outs)) eqn:E1;
    destruct (assertO result) as [o|]; destruct (idx <? 0) eqn:E0;
    try done.
  - apply Z.ltb_lt in E0. apply setIndex_None. lia.
  - apply Z.ltb_lt in E1. apply Z.ltb_ge in E0.
    apply setIndex_in_range. lia.
  - apply Z.ltb_lt in E0. apply Z.ltb_ge in E1. lia.
Qed.

(** Two iterations on distinct keys commute, so the order in which Go
    ranges over the map does not matter. *)
Lemma restoreOne_comm j1 j2 z1 z2 y :
  j1 ≠ j2 →
  restoreOne j1 z1 (restoreOne j2 z2 y) = restoreOne j2 z2 (restoreOne j1 z1 y).
Proof.
  intros Hne. destruct y as [outs|]; [|done].
  rewrite (restoreOne_Some j2 z2 outs), (restoreOne_Some j1 z1 outs).
  destruct (assertO z1) as [o1|] eqn:A1, (assertO z2) as [o2|] eqn:A2;
    destruct (j1 <? 0) eqn:N1, (j2 <? 0) eqn:N2,
             (j1 <? Z.of_nat (length outs)) eqn:L1,
             (j2 <? Z.of_nat (length outs)) eqn:L2;
    rewrite ?restoreOne_None, ?restoreOne_Some, ?A1, ?A2, ?N1, ?N2,
            ?length_insert, ?L1, ?L2;
    try done.
  apply Z.ltb_ge in N1, N2.
  f_equal. apply list_insert_insert_ne. lia.
Qed.

Lemma restoreCompleted_insert m i x outs :
  m !! i = None →
  restoreCompleted (<[i := x]> m) outs =
  restoreOne i x (restoreCompleted m outs).
Proof.
  intros Hi. unfold restoreCompleted. apply map_fold_insert_L; [|done].
  intros. by apply restoreOne_comm.
Qed.

(** Any order of iteration over the map gives [restoreCompleted]. *)
Lemma restoreCompleted_any_order m outs (order : list (Z * any)) :
  order ≡ₚ map_to_list m →
  foldr (uncurry restoreOne) (Some outs) order = restoreCompleted m outs.
Proof.
  intros Hp. unfold restoreCompleted. rewrite map_fold_foldr.
  apply (foldr_permutation (=) (uncurry restoreOne) (Some outs)); [|done].
  intros k1 [j1 z1] k2 [j2 z2] y Hk H1 H2. cbn.
  apply restoreOne_comm. intros ->.
  apply Hk. apply (NoDup_lookup (order.*1) k1 k2 j2).
  - rewrite Hp. apply NoDup_fst_map_to_list.
  - by rewrite list_lookup_fmap, H1.
  - by rewrite list_lookup_fmap, H2.
Qed.

End RestoreFacts.

Section PrepareFacts.
Import Batch.
Context `{env : Env}.

(** An entry at or beyond the allocated length is skipped. *)
Lemma restoreOne_skip idx result outs :
  Z.of_nat (length outs) <= idx →
  restoreOne idx result (Some outs) = Some outs.
Proof.
  intros H. rewrite restoreOne_Some.
  destruct (assertO result); [|done].
  destruct (idx <? 0) eqn:E0; [apply Z.ltb_lt in E0; lia|].
  destruct (idx <? Z.of_nat (length outs)) eqn:E1; [|done].
  apply Z.ltb_lt in E1. lia.
Qed.

(** A convertible entry under a negative key makes the restoration
    panic: the guard [idx < len(outputs)] lets it through. *)
Lemma restoreCompleted_negative_key m outs k v :
  m !! k = Some v → k < 0 → is_Some (assertO v) →
  restoreCompleted m outs = None.
Proof.
  intros Hk Hneg [o Ho].
  rewrite <- (insert_delete_id m k v Hk).
  rewrite restoreCompleted_insert by apply lookup_delete_eq.
  destruct (restoreCompleted (delete k m) outs) as [outs1|]; [|done].
  rewrite restoreOne_Some, Ho.
  destruct (k <? 0) eqn:E; [done|]. apply Z.ltb_ge in E. lia.
Qed.

(** When no convertible entry has a negative key, the restoration
    succeeds: a slot receives the stored result of its index when that
    converts to [O] and keeps its value otherwise; entries beyond the
    slice leave no trace. *)
Lemma restoreCompleted_spec m outs :
  (∀ k v, m !! k = Some v → is_Some (assertO v) → 0 <= k) →
  ∃ outs', restoreCompleted m outs = Some outs' ∧
    length outs' = length outs ∧
    ∀ i : nat, outs' !! i =
      (λ old, default old (m !! Z.of_nat i ≫= assertO)) <$> outs !! i.
Proof.
  unfold restoreCompleted.
  apply (map_fold_weak_ind
    (λ r m, (∀ k v, m !! k = Some v → is_Some (assertO v) → 0 <= k) →
       ∃ outs', r = Some outs' ∧ length outs' = length outs ∧
         ∀ i : nat, outs' !! i =
           (λ old, default old (m !! Z.of_nat i ≫= assertO)) <$> outs !! i)).
  - intros _. exists outs. split; [done|]. split; [done|].
    intros i. rewrite lookup_empty. cbn. by destruct (outs !! i).
  - intros k v m' r Hk IH Hnn.
    destruct IH as (outs1 & -> & Hlen & Hlook).
    { intros k' v' Hk' Hv'. apply (Hnn k' v'); [|done].
      rewrite lookup_insert_ne; [done|]. intros ->. congruence. }
    rewrite restoreOne_Some.
    destruct (assertO v) as [o|] eqn:Hv.
    + assert (0 <= k) as Hk0.
      { apply (Hnn k v); [apply lookup_insert_eq|by rewrite Hv]. }
      destruct (k <? 0) eqn:E0; [apply Z.ltb_lt in E0; lia|].
      destruct (k <? Z.of_nat (length outs1)) eqn:E1.
      * apply Z.ltb_lt in E1.
        exists (<[Z.to_nat k := o]> outs1). split; [done|].
        rewrite length_insert. split; [done|].
        intros i. destruct (decide (i = Z.to_nat k)) as [->|Hne].
        -- rewrite list_lookup_insert_eq by lia.
           rewrite Z2Nat.id by lia. rewrite lookup_insert_eq. cbn.
           rewrite Hv. cbn.
           destruct (lookup_lt_is_Some_2 outs (Z.to_nat k)) as [old ->];
             [lia|done].
        -- rewrite list_lookup_insert_ne by done.
           rewrite lookup_insert_ne by lia. apply Hlook.
      * apply Z.ltb_ge in E1. exists outs1. split; [done|]. split; [done|].
        intros i. destruct (decide (Z.of_nat i = k)) as [<-|Hne].
        -- rewrite (lookup_ge_None_2 outs1), (lookup_ge_None_2 outs) by lia.
           done.
        -- rewrite lookup_insert_ne by done. apply Hlook.
    + exists outs1. split; [done|]. split; [done|].
      intros i. destruct (decide (Z.of_nat i = k)) as [<-|Hne].
      * rewrite lookup_insert_eq. cbn. rewrite Hv. cbn.
        rewrite Hlook, Hk. done.
      * rewrite lookup_insert_ne by done. apply Hlook.
Qed.

(** ** [prepare] *)

Lemma prepare_first_run ctx inputs :
  resumeState ctx = None →
  prepare ctx inputs =
  Some (allIndices inputs, inputs, replicate (length inputs) zeroO).
Proof. intros H. unfold prepare. by rewrite H. Qed.

(** A resume whose state has as many slots as stored inputs and no
    convertible result under a negative key restores without a panic.
    The inputs passed to the call are ignored. *)
Lemma prepare_resume ctx inputs prev :
  resumeState ctx = Some prev →
  Z.of_nat (length (OriginalInputs prev)) <= TotalCount prev →
  (∀ k v, CompletedResults prev !! k = Some v → is_Some (assertO v) → 0 <= k) →
  ∃ eff outs,
    prepare ctx inputs = Some (InterruptedIndices prev, eff, outs) ∧
    Z.of_nat (length eff) = TotalCount prev ∧
    length outs = length eff ∧
    (∀ (i : nat) v, OriginalInputs prev !! i = Some v →
       eff !! i = Some (default zeroI (assertI v))) ∧
    (∀ i : nat, (Z.of_nat i < TotalCount prev) →
       outs !! i =
       Some (default zeroO (CompletedResults prev !! Z.of_nat i ≫= assertO))).
Proof.
  intros Hr Htot Hnn. unfold prepare. rewrite Hr.
  unfold makeSlice.
  destruct (TotalCount prev <? 0) eqn:E0; [apply Z.ltb_lt in E0; lia|].
  apply Z.ltb_ge in E0. cbn.
  set (eff0 := replicate (Z.to_nat (TotalCount prev)) zeroI).
  assert (length eff0 = Z.to_nat (TotalCount prev)) as Hl0
    by apply length_replicate.
  destruct (restoreInputs_spec (OriginalInputs prev) 0 eff0)
    as (eff & He & Hle & _ & Hhi); [lia|lia|].
  rewrite He. cbn.
  destruct (restoreCompleted_spec (CompletedResults prev)
              (replicate (length eff) zeroO) Hnn)
    as (outs & Ho & Hlo & Hlook).
  rewrite Ho. cbn. exists eff, outs. split; [done|].
  rewrite length_replicate in Hlo.
  split; [lia|]. split; [done|]. split.
  - intros i v Hv. specialize (Hhi i v Hv).
    change (Z.to_nat 0 + i)%nat with i in Hhi. rewrite Hhi.
    destruct (assertI v); [done|]. cbn.
    apply lookup_replicate_2. apply lookup_lt_Some in Hv. lia.
  - intros i Hi. rewrite Hlook.
    rewrite lookup_replicate_2 by lia. done.
Qed.

Lemma validState_restorable prev :
  validState prev →
  Z.of_nat (length (OriginalInputs prev)) <= TotalCount prev ∧
  (∀ k v, CompletedResults prev !! k = Some v → is_Some (assertO v) → 0 <= k).
Proof.
  intros [Ht _ _ _ Hc]. split; [lia|].
  intros k v Hk _. destruct (Hc k v Hk) as [? _]. lia.
Qed.

End PrepareFacts.

Section CollectFacts.
Import Store Batch.
Context `{env : Env}.

Lemma suspensions_cons r rs :
  suspensions (r :: rs) =
  match err r with
  | Some e => if ExtractInterruptInfo e
              then (index r, e) :: suspensions rs else suspensions rs
  | None => suspensions rs
  end.
Proof.
  unfold suspensions. cbn.
  destruct (err r) as [e|]; [destruct (ExtractInterruptInfo e)|]; done.
Qed.

Lemma successIndices_cons r rs :
  successIndices (r :: rs) =
  match err r with
  | Some _ => successIndices rs
  | None => index r :: successIndices rs
  end.
Proof. unfold successIndices. cbn. by destruct (err r). Qed.

(** The interrupt signals are appended in arrival order. *)
Lemma collect_suspensions arrival : ∀ c c',
  collect c arrival = Some c' →
  interruptErrs c' = interruptErrs c ++ (suspensions arrival).*2 ∧
  interruptedIndices c' = interruptedIndices c ++ (suspensions arrival).*1.
Proof.
  induction arrival as [|r arrival IH]; intros c c' Hc.
  - cbn in Hc. simplify_eq. cbn. by rewrite !app_nil_r.
  - cbn in Hc. destruct (collectOne c r) as [c1|] eqn:H1; [|done].
    cbn in Hc. destruct (IH _ _ Hc) as [-> ->].
    rewrite suspensions_cons.
    unfold collectOne in H1. destruct (err r) as [e|].
    + destruct (ExtractInterruptInfo e).
      * simplify_eq. cbn. by rewrite <- !app_assoc.
      * destruct (normalErr c); by simplify_eq.
    + destruct (setIndex _ _ _); [|done]. cbn in H1. by simplify_eq.
Qed.

(** When the outputs of the successful results are a function [g] of
    their index, the slots and the completed-results map hold [g] at
    the successful indices and are unchanged elsewhere. *)
Lemma collect_successes (g : Z → O) arrival : ∀ c c',
  collect c arrival = Some c' →
  Forall (λ r, err r = None → output r = g (index r)) arrival →
  (∀ k, completedResults c' !! k =
        if decide (k ∈ successIndices arrival)
        then Some (anyOfO (g k)) else completedResults c !! k) ∧
  (∀ i : nat, (i < length (outputs c))%nat →
        outputs c' !! i =
        if decide (Z.of_nat i ∈ successIndices arrival)
        then Some (g (Z.of_nat i)) else outputs c !! i).
Proof.
  induction arrival as [|r arrival IH]; intros c c' Hc Hg.
  - cbn in Hc. simplify_eq. split; intros; by rewrite decide_False by apply not_elem_of_nil.
  - apply Forall_cons in Hg as [Hr Hg].
    cbn in Hc. destruct (collectOne c r) as [c1|] eqn:H1; [|done].
    cbn in Hc. destruct (IH _ _ Hc Hg) as [IHm IHo].
    pose proof (collectOne_length _ _ _ H1) as Hlen.
    rewrite successIndices_cons.
    unfold collectOne in H1. destruct (err r) as [e|] eqn:Er.
    + assert (completedResults c1 = completedResults c ∧ outputs c1 = outputs c)
        as [Em Eo].
      { destruct (ExtractInterruptInfo e); [by simplify_eq|].
        destruct (normalErr c); by simplify_eq. }
      split.
      * intros k. by rewrite IHm, Em.
      * intros i Hi. rewrite IHo by lia. by rewrite Eo.
    + destruct (setIndex (outputs c) (index r) (output r)) as [o1|] eqn:S;
        [|done].
      apply setIndex_Some in S as [Hin ->]. cbn in H1. simplify_eq.
      cbn in *. rewrite (Hr eq_refl) in *. split.
      * intros k. rewrite IHm.
        destruct (decide (k ∈ successIndices arrival)) as [Hk|Hk].
        -- rewrite decide_True; [done|]. by right.
        -- destruct (decide (k = index r)) as [->|Hne].
           ++ rewrite decide_True by left. apply lookup_insert_eq.
           ++ rewrite decide_False.
              ** by apply lookup_insert_ne.
              ** intros [?|?]%elem_of_cons; done.
      * intros i Hi. rewrite IHo by lia.
        destruct (decide (Z.of_nat i ∈ successIndices arrival)) as [Hk|Hk].
        -- rewrite decide_True; [done|]. by right.
        -- destruct (decide (Z.of_nat i = index r)) as [E|Hne].
           ++ rewrite decide_True by (rewrite E; left).
              rewrite <- E, Nat2Z.id. by apply list_lookup_insert_eq.
           ++ rewrite decide_False.
              ** apply list_lookup_insert_ne. lia.
              ** intros [?|?]%elem_of_cons; done.
Qed.

(** The error kept by the collecting loop wraps a task error. *)
Lemma collect_normalErr_shape arrival : ∀ c c' e,
  normalErr c = None → collect c arrival = Some c' →
  normalErr c' = Some e → ∃ i e', e = TaskFailed i e'.
Proof.
  induction arrival as [|r arrival IH]; intros c c' e Hn Hc He.
  - cbn in Hc. congruence.
  - cbn in Hc. destruct (collectOne c r) as [c1|] eqn:H1; [|done].
    cbn in Hc. unfold collectOne in H1. destruct (err r) as [e1|].
    + destruct (ExtractInterruptInfo e1).
      * simplify_eq. by eapply IH; [|exact Hc|exact He].
      * rewrite Hn in H1. simplify_eq.
        assert (normalErr c' = Some (TaskFailed (index r) e1)) as Hs
          by (eapply collect_normalErr_sticky; [|exact Hc]; done).
        rewrite Hs in He. simplify_eq. by eexists _, _.
    + destruct (setIndex _ _ _); [|done]. cbn in H1. simplify_eq.
      by eapply IH; [|exact Hc|exact He].
Qed.

(** ** From [invoke] to its stages *)

Lemma invoke_received b ctx inputs arrive arrival :
  received b ctx inputs arrive = Some arrival →
  ∃ ixs eff outs runner evs rs,
    prepare ctx inputs = Some (ixs, eff, outs) ∧
    innerTask b newBatchBridgeStore = inl runner ∧
    dispatch runner eff ixs = (evs, Some rs) ∧
    arrival = arrivalOrder (maxConcurrency b) arrive rs ∧
    invoke b ctx inputs arrive =
      {| trace := EvCompile :: evs;
         res := match collect (newCollector outs) arrival with
                | None => Panic
                | Some c => finish eff c
                end |}.
Proof.
  unfold received, invoke. intros H.
  destruct (prepare ctx inputs) as [[[ixs eff] outs]|]; [|done].
  destruct (innerTask b newBatchBridgeStore) as [runner|]; [|done].
  destruct (length ixs =? 0)%nat; [done|].
  destruct (maxConcurrency b <? 0); [done|].
  destruct (dispatch runner eff ixs) as [evs [rs|]] eqn:Hd; [|done].
  cbn in H. simplify_eq.
  by exists ixs, eff, outs, runner, evs, rs.
Qed.

(** Results come from dispatched indices, which are in range. *)
Lemma dispatch_results_in_range (runner : Runnable) (eff : list I) ixs :
  ∀ evs rs, dispatch runner eff ixs = (evs, Some rs) →
  Forall (λ r, 0 <= index r < Z.of_nat (length eff)) rs ∧
  index <$> rs = ixs ∧ invokedIndices evs = ixs.
Proof.
  induction ixs as [|i ixs IH]; intros evs rs H.
  - cbn in H. by simplify_eq.
  - cbn in H. destruct (getIndex eff i) as [x|] eqn:Hx; [|done].
    destruct (dispatch runner eff ixs) as [evs' [rs'|]]; [|done].
    cbn in H. simplify_eq.
    destruct (IH _ _ eq_refl) as (Hall & Hix & Hev).
    apply getIndex_Some in Hx as [Hx _].
    split; [constructor; [by rewrite index_runTask|done]|].
    split; cbn; [by rewrite index_runTask, Hix|by rewrite <- Hev].
Qed.

Lemma prepare_lengths ctx inputs ixs eff outs :
  prepare ctx inputs = Some (ixs, eff, outs) → length outs = length eff.
Proof.
  unfold prepare. destruct (resumeState ctx) as [prev|].
  - destruct (makeSlice zeroI (TotalCount prev)) as [e0|]; [|done]. cbn.
    destruct (restoreInputs (OriginalInputs prev) 0 e0) as [e1|]; [|done].
    cbn. unfold restoreCompleted.
    generalize (CompletedResults prev). intros m.
    assert (∀ r, map_fold restoreOne (Some (replicate (length e1) zeroO)) m = Some r
                 → length r = length e1) as Hl.
    { apply (map_fold_weak_ind (λ r m, ∀ r', r = Some r' → length r' = length e1)).
      - intros r' [= <-]. apply length_replicate.
      - intros k v m' r _ IH r' Hr. destruct r as [r0|]; [|done].
        apply restoreOne_length in Hr. rewrite Hr. by apply IH. }
    destruct (map_fold restoreOne _ m) as [r|] eqn:Hm; [|done].
    cbn. intros [= <- <- <-]. by apply Hl.
  - intros [= <- <- <-]. apply length_replicate.
Qed.

(** A run that reaches the collecting loop finishes it. *)
Lemma invoke_collected b ctx inputs arrive arrival :
  (∀ l, arrive l ≡ₚ l) →
  received b ctx inputs arrive = Some arrival →
  ∃ eff outs c,
    collect (newCollector outs) arrival = Some c ∧
    length outs = length eff ∧
    Forall (λ r, 0 <= index r < Z.of_nat (length eff)) arrival ∧
    res (invoke b ctx inputs arrive) = finish eff c.
Proof.
  intros Ha Hr.
  destruct (invoke_received _ _ _ _ _ Hr)
    as (ixs & eff & outs & runner & evs & rs & Hp & Hc & Hd & -> & Hi).
  pose proof (prepare_lengths _ _ _ _ _ Hp) as Hlen.
  destruct (dispatch_results_in_range _ _ _ _ _ Hd) as (Hall & _ & _).
  assert (Forall (λ r, 0 <= index r < Z.of_nat (length eff))
                 (arrivalOrder (maxConcurrency b) arrive rs)) as Hall'.
  { by rewrite (arrivalOrder_perm _ _ rs Ha). }
  destruct (collect_total (arrivalOrder (maxConcurrency b) arrive rs)
              (newCollector outs)) as (c & Hcol & _).
  { cbn. by rewrite Hlen. }
  exists eff, outs, c. rewrite Hi, Hcol. done.
Qed.

End CollectFacts.

(** C2. Fail-fast on ordinary failure: in every run in which a
    collected result carries an ordinary (non-interrupt) error, [Invoke]
    returns nil outputs and the error that wraps, with its index, the
    first ordinary error in arrival order; the successes, the later
    failures and the interrupt signals are not part of what is
    returned. *)
Theorem fail_fast_on_ordinary_failure `{env : Batch.Env}
    (b : Batch.Node) (ctx : Batch.interruptCtx) (inputs : list Batch.I)
    (arrive : list Batch.taskResult → list Batch.taskResult)
    (pre post : list Batch.taskResult) (r : Batch.taskResult) (e : Batch.E) :
  (∀ l, arrive l ≡ₚ l) →
  Batch.received b ctx inputs arrive = Some (pre ++ r :: post) →
  Forall (λ r', ¬ Batch.ordinaryFailure r') pre →
  Batch.err r = Some e →
  Batch.ExtractInterruptInfo e = false →
  Batch.res (Batch.Invoke b ctx inputs arrive) =
  Batch.Return None (Some (Batch.TaskFailed (Batch.index r) e)).
Proof.
  intros Ha Hr Hpre He Hx.
  destruct (invoke_collected _ _ _ _ _ Ha Hr) as (eff & outs & c & Hc & _ & _ & Hres).
  unfold Batch.Invoke. cbn. rewrite Hres.
  rewrite collect_app in Hc.
  destruct (Batch.collect (Batch.newCollector outs) pre) as [c1|] eqn:H1; [|done].
  cbn in Hc.
  destruct (Batch.collectOne c1 r) as [c2|] eqn:H2; [|done]. cbn in Hc.
  assert (Batch.normalErr c1 = None) as Hn1.
  { by rewrite (collect_no_failure _ _ _ Hpre H1). }
  assert (Batch.normalErr c2 = Some (Batch.TaskFailed (Batch.index r) e)) as Hn2.
  { unfold Batch.collectOne in H2. rewrite He, Hx, Hn1 in H2. by simplify_eq. }
  unfold Batch.finish.
  by rewrite (collect_normalErr_sticky _ _ _ _ Hn2 Hc).
Qed.

Section FirstRunFacts.
Import Store Batch.
Context `{env : Env}.

Lemma all_success_lists (rs : list taskResult) :
  Forall (λ r, err r = None) rs →
  suspensions rs = [] ∧ successIndices rs = index <$> rs ∧
  Forall (λ r, ¬ ordinaryFailure r) rs.
Proof.
  induction 1 as [|r rs Hr _ (IH1 & IH2 & IH3)]; [done|].
  rewrite suspensions_cons, successIndices_cons, Hr, IH1, IH2.
  repeat split. constructor; [|done].
  intros (e & He & _). congruence.
Qed.

(** The stages of a first run on a non-empty input sequence. *)
Lemma first_run_stages b ctx (inputs : list I) arrive runner :
  resumeState ctx = None →
  0 <= maxConcurrency b →
  (∀ l, arrive l ≡ₚ l) →
  innerTask b newBatchBridgeStore = inl runner →
  inputs ≠ [] →
  ∃ evs rs arrival c,
    dispatch runner inputs (allIndices inputs) = (evs, Some rs) ∧
    index <$> rs = allIndices inputs ∧
    Forall (λ r, ∃ x, getIndex inputs (index r) = Some x ∧
                      r = runTask runner (index r) x) rs ∧
    arrival ≡ₚ rs ∧
    received b ctx inputs arrive = Some arrival ∧
    collect (newCollector (replicate (length inputs) zeroO)) arrival = Some c ∧
    length (outputs c) = length inputs ∧
    invoke b ctx inputs arrive =
      {| trace := EvCompile :: evs; res := finish inputs c |}.
Proof.
  intros Hr HB Ha Hc Hne.
  destruct (dispatch_in_range runner inputs (allIndices inputs))
    as (evs & rs & Hd & _ & Hix & Hrs); [apply allIndices_in_range|].
  assert (received b ctx inputs arrive =
          Some (arrivalOrder (maxConcurrency b) arrive rs)) as Hrec.
  { unfold received. rewrite (prepare_first_run _ _ Hr), Hc.
    rewrite allIndices_length.
    destruct (length inputs =? 0)%nat eqn:E0;
      [apply Nat.eqb_eq in E0; by destruct inputs|].
    destruct (maxConcurrency b <? 0) eqn:E; [apply Z.ltb_lt in E; lia|].
    by rewrite Hd. }
  destruct (collect_total (arrivalOrder (maxConcurrency b) arrive rs)
              (newCollector (replicate (length inputs) zeroO)))
    as (c & Hcol & Hlen).
  { rewrite (arrivalOrder_perm _ _ rs Ha).
    cbn. rewrite length_replicate.
    eapply Forall_impl; [exact Hrs|]. cbn.
    intros r (x & Hx & _). by apply getIndex_Some in Hx as [? _]. }
  exists evs, rs, (arrivalOrder (maxConcurrency b) arrive rs), c.
  repeat split; try done.
  - by apply arrivalOrder_perm.
  - rewrite Hlen. cbn. apply length_replicate.
  - unfold invoke. rewrite (prepare_first_run _ _ Hr), Hc.
    rewrite allIndices_length.
    destruct (length inputs =? 0)%nat eqn:E0;
      [apply Nat.eqb_eq in E0; by destruct inputs|].
    destruct (maxConcurrency b <? 0) eqn:E; [apply Z.ltb_lt in E; lia|].
    rewrite Hd. by rewrite Hcol.
Qed.

(** When every task succeeds, collecting the results in any order
    fills slot [i] with the output for input [i]. *)
Lemma all_success_any_order (runner : Runnable) (inputs : list I) rs arrival :
  index <$> rs = allIndices inputs →
  Forall (λ r, ∃ x, getIndex inputs (index r) = Some x ∧
                    r = runTask runner (index r) x) rs →
  (∀ (i : nat) x, inputs !! i = Some x →
     snd (runner (mkCall (Z.of_nat i) x)) = None) →
  arrival ≡ₚ rs →
  ∃ c,
    collect (newCollector (replicate (length inputs) zeroO)) arrival = Some c ∧
    finish inputs c = Return (Some (outputs c)) None ∧
    length (outputs c) = length inputs ∧
    ∀ (i : nat) x, inputs !! i = Some x →
      outputs c !! i = Some (fst (runner (mkCall (Z.of_nat i) x))).
Proof.
  intros Hix Hrs Hok Hperm.
  set (g := λ k, match getIndex inputs k with
                 | Some x => fst (runner (mkCall k x))
                 | None => zeroO
                 end).
  assert (Forall (λ r, err r = None ∧ output r = g (index r) ∧
                       0 <= index r < Z.of_nat (length inputs)) arrival) as Hall.
  { rewrite Hperm. eapply Forall_impl; [exact Hrs|]. cbn.
    intros r (x & Hx & Hrun). unfold g. rewrite Hx.
    rewrite Hrun at 1 2. rewrite err_runTask, output_runTask.
    apply getIndex_Some in Hx as [Hi Hx].
    specialize (Hok (Z.to_nat (index r)) x Hx).
    rewrite Z2Nat.id in Hok by lia. done. }
  destruct (collect_total arrival (newCollector (replicate (length inputs) zeroO)))
    as (c & Hcol & Hlen).
  { cbn. rewrite length_replicate.
    eapply Forall_impl; [exact Hall|]. by intros r (_ & _ & ?). }
  cbn in Hlen. rewrite length_replicate in Hlen.
  destruct (all_success_lists arrival) as (Hsus & Hsucc & Hnf).
  { eapply Forall_impl; [exact Hall|]. by intros r [? _]. }
  destruct (collect_suspensions _ _ _ Hcol) as [Hie _].
  rewrite Hsus in Hie. cbn in Hie.
  pose proof (collect_no_failure _ _ _ Hnf Hcol) as Hne. cbn in Hne.
  destruct (collect_successes g _ _ _ Hcol) as [_ Hout].
  { eapply Forall_impl; [exact Hall|]. by intros r (_ & ? & _). }
  exists c. split; [done|]. split.
  { unfold finish. by rewrite Hne, Hie. }
  split; [done|].
  intros i x Hx. rewrite Hout.
  2:{ cbn. rewrite length_replicate. by apply lookup_lt_Some in Hx. }
  rewrite decide_True.
  - unfold g. by rewrite (getIndex_of_nat _ _ _ Hx).
  - rewrite Hsucc, Hperm, Hix. apply allIndices_elem.
    apply lookup_lt_Some in Hx. lia.
Qed.

End FirstRunFacts.

(** C1, amended.  All-success order preservation: on a first run (no
    resume state) over an input sequence of length N, with a bound that
    is not negative and an inner task that compiles, when every
    sub-task invocation returns an output and no error (neither an
    ordinary error nor an interrupt), [Invoke] returns a nil error and
    exactly N outputs, the i-th being the inner task's output for input
    i, whatever the order in which the results arrive on the result
    channel. *)
Theorem all_success_order_preservation `{env : Batch.Env}
    (b : Batch.Node) (ctx : Batch.interruptCtx) (inputs : list Batch.I)
    (arrive : list Batch.taskResult → list Batch.taskResult)
    (runner : Batch.Runnable) :
  Batch.resumeState ctx = None →
  0 <= Batch.maxConcurrency b →
  (∀ l, arrive l ≡ₚ l) →
  Batch.innerTask b Store.newBatchBridgeStore = inl runner →
  (∀ (i : nat) x, inputs !! i = Some x →
     snd (runner (Batch.mkCall (Z.of_nat i) x)) = None) →
  ∃ outs,
    Batch.res (Batch.Invoke b ctx inputs arrive) = Batch.Return (Some outs) None ∧
    length outs = length inputs ∧
    ∀ (i : nat) x, inputs !! i = Some x →
      outs !! i = Some (fst (runner (Batch.mkCall (Z.of_nat i) x))).
Proof.
  intros Hr HB Ha Hc Hok.
  destruct (decide (inputs = [])) as [->|Hne].
  { exists []. unfold Batch.Invoke, Batch.invoke.
    rewrite (prepare_first_run _ _ Hr), Hc. by cbn. }
  destruct (first_run_stages b ctx inputs arrive runner Hr HB Ha Hc Hne)
    as (evs & rs & arrival & c & Hd & Hix & Hrs & Hperm & _ & Hcol & _ & Hinv).
  destruct (all_success_any_order runner inputs rs arrival Hix Hrs Hok Hperm)
    as (c' & Hcol' & Hfin & Hlen & Hout).
  rewrite Hcol in Hcol'. simplify_eq.
  exists (Batch.outputs c'). unfold Batch.Invoke. rewrite Hinv.
  cbn [Batch.res Batch.trace]. by rewrite Hfin.
Qed.

Section ResumeFacts.
Import Store Batch.
Context `{env : Env}.

Lemma successIndices_subset (rs : list taskResult) k :
  k ∈ successIndices rs → k ∈ index <$> rs.
Proof.
  induction rs as [|r rs IH]; [done|].
  rewrite successIndices_cons, fmap_cons.
  destruct (err r).
  - intros H. right. by apply IH.
  - intros [->|H]%elem_of_cons; [left|right; by apply IH].
Qed.

(** The stages of a run that has something to process, every index
    being in range. *)
Lemma run_stages b ctx (inputs : list I) arrive runner ixs eff outs :
  prepare ctx inputs = Some (ixs, eff, outs) →
  innerTask b newBatchBridgeStore = inl runner →
  ixs ≠ [] →
  0 <= maxConcurrency b →
  (∀ l, arrive l ≡ₚ l) →
  Forall (λ i, 0 <= i < Z.of_nat (length eff)) ixs →
  ∃ evs rs arrival c,
    invokedIndices evs = ixs ∧
    index <$> rs = ixs ∧
    Forall (λ r, ∃ x, getIndex eff (index r) = Some x ∧
                      r = runTask runner (index r) x) rs ∧
    arrival ≡ₚ rs ∧
    received b ctx inputs arrive = Some arrival ∧
    collect (newCollector outs) arrival = Some c ∧
    length (outputs c) = length outs ∧
    invoke b ctx inputs arrive =
      {| trace := EvCompile :: evs; res := finish eff c |}.
Proof.
  intros Hp Hc Hne HB Ha Hin.
  pose proof (prepare_lengths _ _ _ _ _ Hp) as Hlo.
  destruct (dispatch_in_range runner eff ixs Hin)
    as (evs & rs & Hd & Hev & Hix & Hrs).
  destruct (collect_total (arrivalOrder (maxConcurrency b) arrive rs)
              (newCollector outs)) as (c & Hcol & Hlen).
  { rewrite (arrivalOrder_perm _ _ rs Ha). cbn. rewrite Hlo.
    eapply Forall_impl; [exact Hrs|]. cbn.
    intros r (x & Hx & _). by apply getIndex_Some in Hx as [? _]. }
  exists evs, rs, (arrivalOrder (maxConcurrency b) arrive rs), c.
  assert ((length ixs =? 0)%nat = false) as E0.
  { apply Nat.eqb_neq. by destruct ixs. }
  assert ((maxConcurrency b <? 0) = false) as EB by (apply Z.ltb_ge; lia).
  repeat split; try done.
  - by apply arrivalOrder_perm.
  - unfold received. by rewrite Hp, Hc, E0, EB, Hd.
  - unfold invoke. by rewrite Hp, Hc, E0, EB, Hd, Hcol.
Qed.

(** Slots of indices that are not processed keep their value. *)
Lemma collect_untouched (runner : Runnable) (eff : list I) rs arrival c c' (i : nat) :
  Forall (λ r, ∃ x, getIndex eff (index r) = Some x ∧
                    r = runTask runner (index r) x) rs →
  arrival ≡ₚ rs →
  collect c arrival = Some c' →
  (i < length (outputs c))%nat →
  Z.of_nat i ∉ (index <$> rs) →
  outputs c' !! i = outputs c !! i.
Proof.
  intros Hrs Hperm Hcol Hi Hnot.
  set (g := λ k, match getIndex eff k with
                 | Some x => fst (runner (mkCall k x))
                 | None => zeroO
                 end).
  destruct (collect_successes g _ _ _ Hcol) as [_ Hout].
  { rewrite Hperm. eapply Forall_impl; [exact Hrs|]. cbn.
    intros r (x & Hx & Hrun) _. unfold g. rewrite Hx.
    rewrite Hrun at 1. by rewrite output_runTask. }
  rewrite (Hout i Hi). rewrite decide_False; [done|].
  intros Hk%successIndices_subset. by rewrite Hperm in Hk.
Qed.

(** A resumed run that suspends again builds its state from the
    results of this run only: whatever the previous state recorded as
    completed is absent from the new state. *)
Lemma resumed_suspension_forgets_completed b ctx (inputs : list I) arrive
    prev runner st errs :
  resumeState ctx = Some prev →
  validState prev →
  0 <= maxConcurrency b →
  (∀ l, arrive l ≡ₚ l) →
  innerTask b newBatchBridgeStore = inl runner →
  res (Invoke b ctx inputs arrive) =
    Return None (Some (CompositeInterrupt st errs)) →
  ∀ k v, CompletedResults prev !! k = Some v → CompletedResults st !! k = None.
Proof.
  intros Hr Hv HB Ha Hc Hres k v Hk.
  destruct (validState_restorable prev Hv) as [Ht Hnn].
  destruct (prepare_resume ctx inputs prev Hr Ht Hnn)
    as (eff & outs0 & Hp & Hle & Hlo & _ & _).
  destruct Hv as [_ _ Hint _ Hcomp].
  destruct (Hcomp k v Hk) as (_ & _ & Hnot).
  destruct (decide (InterruptedIndices prev = [])) as [Hnone|Hsome].
  { unfold Invoke, invoke in Hres. rewrite Hp, Hc, Hnone in Hres. done. }
  destruct (run_stages b ctx inputs arrive runner _ _ _ Hp Hc Hsome HB Ha)
    as (evs & rs & arrival & c & Hev & Hix & Hrs & Hperm & _ & Hcol & Hlen & Hinv).
  { eapply Forall_impl; [exact Hint|]. cbn. intros i. lia. }
  unfold Invoke in Hres. rewrite Hinv in Hres. cbn [res] in Hres.
  unfold finish in Hres.
  destruct (normalErr c) as [e0|] eqn:Hn.
  { assert (∃ i e', e0 = TaskFailed i e') as (i & e' & ->)
      by (eapply collect_normalErr_shape; [|exact Hcol|exact Hn]; done).
    done. }
  destruct (0 <? length (interruptErrs c))%nat; [|done].
  simplify_eq. cbn.
  set (g := λ k, match getIndex eff k with
                 | Some x => fst (runner (mkCall k x))
                 | None => zeroO
                 end).
  destruct (collect_successes g _ _ _ Hcol) as [Hm _].
  { rewrite Hperm. eapply Forall_impl; [exact Hrs|]. cbn.
    intros r (x & Hx & Hrun) _. unfold g. rewrite Hx.
    rewrite Hrun at 1. by rewrite output_runTask. }
  rewrite Hm. rewrite decide_False; [apply lookup_empty|].
  intros Hin%successIndices_subset. by rewrite Hperm, Hix in Hin.
Qed.

End ResumeFacts.

(** C8. Dispatch-error abort: in every invocation in which compiling
    the shared inner task fails, [Invoke] returns nil outputs and an
    error wrapping the compile error, and no sub-task invocation is
    started. *)
Theorem dispatch_error_abort `{env : Batch.Env}
    (b : Batch.Node) (ctx : Batch.interruptCtx) (inputs : list Batch.I)
    (arrive : list Batch.taskResult → list Batch.taskResult) (e : Batch.E) :
  Batch.EvCompile ∈ Batch.trace (Batch.Invoke b ctx inputs arrive) →
  Batch.innerTask b Store.newBatchBridgeStore = inr e →
  Batch.res (Batch.Invoke b ctx inputs arrive) =
    Batch.Return None (Some (Batch.CompileFailed e)) ∧
  Batch.invokedIndices (Batch.trace (Batch.Invoke b ctx inputs arrive)) = [].
Proof.
  unfold Batch.Invoke, Batch.invoke. intros Hev Hc.
  destruct (Batch.prepare ctx inputs) as [[[ixs eff] outs]|].
  - by rewrite Hc.
  - cbn in Hev. by apply elem_of_nil in Hev.
Qed.


(** C4, amended. Resume re-execution exactness: in every resumed
    invocation that carries a valid prior state, has a non-negative
    concurrency bound and whose inner task compiles, the indices for
    which the inner task is invoked are exactly the state's
    [InterruptedIndices], each once; an index present in
    [CompletedResults] is not re-executed: its stored output is
    pre-populated into its output slot, where it stays in the outputs
    the invocation returns. *)
Theorem resume_reexecution_exactness `{env : Batch.Env}
    (b : Batch.Node) (ctx : Batch.interruptCtx) (inputs : list Batch.I)
    (arrive : list Batch.taskResult → list Batch.taskResult)
    (prev : Batch.NodeInterruptState) (runner : Batch.Runnable) :
  Batch.resumeState ctx = Some prev →
  Batch.validState prev →
  0 <= Batch.maxConcurrency b →
  (∀ l, arrive l ≡ₚ l) →
  Batch.innerTask b Store.newBatchBridgeStore = inl runner →
  Batch.invokedIndices (Batch.trace (Batch.Invoke b ctx inputs arrive)) =
    Batch.InterruptedIndices prev ∧
  ∃ eff outs0,
    Batch.prepare ctx inputs = Some (Batch.InterruptedIndices prev, eff, outs0) ∧
    ∀ i v, Batch.CompletedResults prev !! i = Some v →
      (i ∉ Batch.invokedIndices (Batch.trace (Batch.Invoke b ctx inputs arrive))) ∧
      ∃ o, Batch.assertO v = Some o ∧
           outs0 !! Z.to_nat i = Some o ∧
           ∀ outs, Batch.res (Batch.Invoke b ctx inputs arrive) =
                     Batch.Return (Some outs) None →
                   outs !! Z.to_nat i = Some o.
Proof.
  intros Hr Hv HB Ha Hc.
  destruct (validState_restorable prev Hv) as [Ht Hnn].
  destruct (prepare_resume ctx inputs prev Hr Ht Hnn)
    as (eff & outs0 & Hp & Hle & Hlo & _ & Hout).
  destruct Hv as [Htot _ Hint _ Hcomp].
  assert (∀ i v, Batch.CompletedResults prev !! i = Some v →
            ∃ o, Batch.assertO v = Some o ∧ outs0 !! Z.to_nat i = Some o) as Hpre.
  { intros i v Hi. destruct (Hcomp i v Hi) as (Hrange & [o Ho] & _).
    exists o. split; [done|]. rewrite Hout by lia.
    rewrite Z2Nat.id by lia. by rewrite Hi; cbn; rewrite Ho. }
  destruct (decide (Batch.InterruptedIndices prev = [])) as [Hnone|Hsome].
  - assert (Batch.Invoke b ctx inputs arrive =
            {| Batch.trace := [Batch.EvCompile];
               Batch.res := Batch.Return (Some outs0) None |}) as ->.
    { unfold Batch.Invoke, Batch.invoke. rewrite Hp, Hc, Hnone. done. }
    cbn. split; [by rewrite Hnone|].
    exists eff, outs0. split; [done|]. intros i v Hi.
    split; [apply not_elem_of_nil|].
    destruct (Hpre i v Hi) as (o & Ho & Hs). exists o.
    split; [done|]. split; [done|]. by intros outs [= <-].
  - destruct (run_stages b ctx inputs arrive runner _ _ _ Hp Hc Hsome HB Ha)
      as (evs & rs & arrival & c & Hev & Hix & Hrs & Hperm & _ & Hcol & Hlen & Hinv).
    { eapply Forall_impl; [exact Hint|]. cbn. intros i. lia. }
    unfold Batch.Invoke. rewrite Hinv. cbn [Batch.trace Batch.res].
    split; [exact Hev|].
    exists eff, outs0. split; [done|]. intros i v Hi.
    destruct (Hcomp i v Hi) as (Hrange & _ & Hnot).
    split; [by rewrite <- Hev in Hnot|].
    destruct (Hpre i v Hi) as (o & Ho & Hs). exists o.
    split; [done|]. split; [done|].
    intros outs Hres.
    assert (Batch.outputs c !! Z.to_nat i = outs0 !! Z.to_nat i) as Hsame.
    { apply (collect_untouched runner eff rs arrival (Batch.newCollector outs0) c);
        try done.
      - cbn. lia.
      - rewrite Z2Nat.id by lia. by rewrite Hix. }
    unfold Batch.finish in Hres.
    destruct (Batch.normalErr c); [done|].
    destruct (0 <? length (Batch.interruptErrs c))%nat; [done|].
    simplify_eq. by rewrite Hsame.
Qed.

Section SuspensionFacts.
Import Store Batch.
Context `{env : Env}.

Lemma suspensions_subset (rs : list taskResult) k :
  k ∈ (suspensions rs).*1 → k ∈ index <$> rs.
Proof.
  induction rs as [|r rs IH]; [done|].
  rewrite suspensions_cons, fmap_cons.
  destruct (err r) as [e|]; [destruct (ExtractInterruptInfo e)|].
  - cbn. intros [->|H]%elem_of_cons; [left|right; by apply IH].
  - intros H. right. by apply IH.
  - intros H. right. by apply IH.
Qed.

Lemma successIndices_elem (rs : list taskResult) r :
  r ∈ rs → err r = None → index r ∈ successIndices rs.
Proof.
  induction rs as [|r' rs IH]; intros Hin He; [by apply elem_of_nil in Hin|].
  rewrite successIndices_cons.
  apply elem_of_cons in Hin as [<-|Hin].
  - rewrite He. left.
  - destruct (err r'); [|right]; by apply IH.
Qed.

Lemma suspensions_NoDup (rs : list taskResult) :
  NoDup (index <$> rs) → NoDup (suspensions rs).*1.
Proof.
  induction rs as [|r rs IH]; [intros _; apply NoDup_nil_2|].
  rewrite fmap_cons, suspensions_cons. intros [Hr Hrs]%NoDup_cons.
  destruct (err r) as [e|]; [destruct (ExtractInterruptInfo e)|]; auto.
  cbn. apply NoDup_cons. split; [|by apply IH].
  intros H%suspensions_subset. done.
Qed.

(** With one result per index, no index both succeeds and suspends. *)
Lemma success_not_suspended (rs : list taskResult) k :
  NoDup (index <$> rs) → k ∈ successIndices rs → k ∉ (suspensions rs).*1.
Proof.
  induction rs as [|r rs IH]; [intros _ H; by apply elem_of_nil in H|].
  rewrite fmap_cons, suspensions_cons, successIndices_cons.
  intros [Hr Hrs]%NoDup_cons.
  destruct (err r) as [e|]; [destruct (ExtractInterruptInfo e)|].
  - intros Hk. cbn. intros [->|H]%elem_of_cons.
    + by apply successIndices_subset in Hk.
    + by apply (IH Hrs Hk).
  - by apply IH.
  - intros [->|Hk]%elem_of_cons.
    + intros H%suspensions_subset. done.
    + by apply IH.
Qed.

Lemma allIndices_NoDup (inputs : list I) : NoDup (allIndices inputs).
Proof.
  unfold allIndices. apply NoDup_fmap_2; [|apply NoDup_seq].
  intros x y. apply Nat2Z.inj.
Qed.

(** On a first run without ordinary failure in which some task
    suspends, [Invoke] returns the composite interrupt that bundles
    every interrupt signal with a state holding the original inputs,
    the output of every index that succeeded, the suspended indices
    and the item count; when values converted to [any] convert back,
    that state is valid. *)
Lemma first_run_suspension_bundle b ctx (inputs : list I) arrive runner arrival :
  resumeState ctx = None →
  0 <= maxConcurrency b →
  (∀ l, arrive l ≡ₚ l) →
  innerTask b newBatchBridgeStore = inl runner →
  received b ctx inputs arrive = Some arrival →
  Forall (λ r, ¬ ordinaryFailure r) arrival →
  suspensions arrival ≠ [] →
  ∃ st,
    res (Invoke b ctx inputs arrive) =
      Return None (Some (CompositeInterrupt st (suspensions arrival).*2)) ∧
    OriginalInputs st = anyOfI <$> inputs ∧
    TotalCount st = Z.of_nat (length inputs) ∧
    InterruptedIndices st = (suspensions arrival).*1 ∧
    (∀ r, r ∈ arrival → err r = None →
       CompletedResults st !! index r = Some (anyOfO (output r))) ∧
    (∀ k, k ∉ successIndices arrival → CompletedResults st !! k = None) ∧
    ((∀ x, is_Some (assertI (anyOfI x))) →
     (∀ o, is_Some (assertO (anyOfO o))) → validState st).
Proof.
  intros Hr HB Ha Hc Hrec Hnf Hsome.
  assert (inputs ≠ []) as Hne.
  { intros ->. unfold received in Hrec.
    rewrite (prepare_first_run _ _ Hr), Hc in Hrec. done. }
  destruct (first_run_stages b ctx inputs arrive runner Hr HB Ha Hc Hne)
    as (evs & rs & arrival' & c & Hd & Hix & Hrs & Hperm & Hrec' & Hcol & Hlen & Hinv).
  rewrite Hrec in Hrec'. simplify_eq.
  set (g := λ k, match getIndex inputs k with
                 | Some x => fst (runner (mkCall k x))
                 | None => zeroO
                 end).
  assert (Forall (λ r, err r = None → output r = g (index r)) arrival') as Hg.
  { rewrite Hperm. eapply Forall_impl; [exact Hrs|]. cbn.
    intros r (x & Hx & Hrun) _. unfold g. rewrite Hx.
    rewrite Hrun at 1. by rewrite output_runTask. }
  destruct (collect_suspensions _ _ _ Hcol) as [Hie Hii]. cbn in Hie, Hii.
  pose proof (collect_no_failure _ _ _ Hnf Hcol) as Hno. cbn in Hno.
  destruct (collect_successes g _ _ _ Hcol Hg) as [Hm _].
  assert (∀ k, completedResults c !! k =
               if decide (k ∈ successIndices arrival')
               then Some (anyOfO (g k)) else None) as Hm'.
  { intros k. rewrite Hm. cbn. by rewrite lookup_empty. }
  exists (makeState inputs c).
  split.
  { unfold Invoke. rewrite Hinv. cbn [res]. unfold finish. rewrite Hno, Hie.
    destruct (suspensions arrival') as [|[k e] l] eqn:Hs; [done|]. by cbn. }
  split; [done|]. split; [done|]. split; [done|]. split; [|split].
  - intros r Hin He. cbn. rewrite Hm'.
    rewrite decide_True by by apply successIndices_elem.
    rewrite Forall_forall in Hg. by rewrite (Hg r Hin He).
  - intros k Hk. cbn. rewrite Hm'. by rewrite decide_False.
  - intros HI HO.
    assert (∀ k, k ∈ index <$> arrival' → 0 <= k < Z.of_nat (length inputs))
      as Hrange.
    { intros k. rewrite Hperm, Hix. apply allIndices_elem. }
    assert (NoDup (index <$> arrival')) as Hnd.
    { rewrite Hperm, Hix. apply allIndices_NoDup. }
    constructor; cbn.
    + by rewrite length_fmap.
    + apply Forall_fmap. apply Forall_forall. intros x _. apply HI.
    + rewrite Hii. apply Forall_forall. intros k Hk%suspensions_subset.
      by apply Hrange.
    + rewrite Hii. by apply suspensions_NoDup.
    + intros k v Hk. rewrite Hm' in Hk.
      destruct (decide (k ∈ successIndices arrival')) as [Hin|]; [|done].
      simplify_eq. split; [by apply Hrange, successIndices_subset|].
      split; [apply HO|]. rewrite Hii. by apply success_not_suspended.
Qed.

End SuspensionFacts.

Section SchedFacts.
Import Sched.

Lemma concurrentInv_step B s s' :
  0 < B → concurrentInv B s → step B s s' → concurrentInv B s'.
Proof.
  intros HB (Hle & Hi & Hm) Hs.
  destruct Hs as [idx rest s HB0 Hp Ho|idx rest s _ Hp Hit Ho|idx s Ho
                 |idx rest s _ Hp Hit Ho|idx w1 w2 s _ Hw Hlt|idx h1 h2 s Hh];
    unfold concurrentInv; cbn.
  - lia.
  - split; [done|]. split; [done|]. intros _. apply Hm. by left.
  - split; [done|]. split; [done|].
    intros [H0|H]; [|done]. apply Hi in H0. congruence.
  - split; [done|]. split; [done|]. intros [H|H]; done.
  - split; [lia|]. split; [done|]. intros H.
    destruct (Hm H) as [Hw' _]. rewrite Hw' in Hw.
    by destruct w1.
  - split.
    + rewrite Hh in Hle. rewrite length_app in *. cbn in Hle. lia.
    + split; [done|]. intros H.
      destruct (Hm H) as [_ Hh']. rewrite Hh' in Hh. by destruct h1.
Qed.

Lemma concurrentInv_reachable B ixs :
  0 < B → ∀ s, rtc (step B) (init ixs) s → concurrentInv B s.
Proof.
  intros HB. apply (rtc_ind_r (concurrentInv B) (init ixs)).
  - unfold concurrentInv. cbn. repeat split; try done. lia.
  - intros s1 s2 _ Hs IH. by eapply concurrentInv_step.
Qed.

Lemma sequentialInv_reachable ixs :
  ∀ s, rtc (step 0) (init ixs) s → sequentialInv ixs s.
Proof.
  apply (rtc_ind_r (sequentialInv ixs) (init ixs)).
  - by repeat split.
  - intros s1 s2 _ Hs IH. destruct IH as (Hw & Hh & Hord).
    destruct Hs as [idx rest s _ Hp Ho|idx rest s HB|idx s Ho
                   |idx rest s HB|idx w1 w2 s HB|idx h1 h2 s Hh'];
      try lia; unfold sequentialInv; cbn.
    + rewrite Hp, Ho in Hord. done.
    + rewrite Ho in Hord. cbn in Hord.
      by rewrite <- app_assoc.
    + rewrite Hh in Hh'. by destruct h1.
Qed.

Lemma arrivalInv_step B ixs s s' :
  0 < B → arrivalInv ixs s → step B s s' → arrivalInv ixs s'.
Proof.
  intros HB Hinv Hs. destruct ixs as [|first rest].
  - cbn in Hinv. subst s.
    inversion Hs as [idx r s0 _ Hp|idx r s0 _ Hp|idx s0 Ho
                    |idx r s0 _ Hp|idx w1 w2 s0 _ Hw|idx h1 h2 s0 Hh];
      subst; cbn in *; try done.
    + by destruct w1.
    + by destruct h1.
  - cbn in Hinv. cbn.
    destruct Hs as [idx r s HB0 Hp Ho|idx r s _ Hp Hit Ho|idx s Ho
                   |idx r s _ Hp Hit Ho|idx w1 w2 s _ Hw Hlt|idx h1 h2 s Hh];
      cbn.
    + lia.
    + right. left.
      destruct Hinv as [->|[(_ & Hn & _)|(_ & Hn & _)]]; try done.
      cbn in Hp. injection Hp as -> ->. done.
    + right. right.
      destruct Hinv as [->|[(Ho' & Hn & Hp & Hf & Hw & Hh)|(Ho' & _)]];
        [done| |congruence].
      assert (idx = first) as -> by congruence.
      split; [done|]. split; [done|]. exists []. rewrite Hf, Hw, Hh, Hp. done.
    + right. right.
      destruct Hinv as [->|[(Ho' & _)|(_ & _ & later & Hf & Hperm)]];
        [done|congruence|].
      split; [done|]. split; [done|]. exists later. split; [done|].
      rewrite <- Hperm, Hp. solve_Permutation.
    + right. right.
      destruct Hinv as [->|[(_ & _ & _ & _ & Hw' & _)|(Ho & Hn & later & Hf & Hperm)]].
      * by destruct w1.
      * rewrite Hw' in Hw. by destruct w1.
      * split; [done|]. split; [done|]. exists later. split; [done|].
        rewrite <- Hperm, Hw. solve_Permutation.
    + right. right.
      destruct Hinv as [->|[(_ & _ & _ & _ & _ & Hh')|(Ho & Hn & later & Hf & Hperm)]].
      * by destruct h1.
      * rewrite Hh' in Hh. by destruct h1.
      * split; [done|]. split; [done|]. exists (idx :: later).
        split; [by rewrite Hf|].
        rewrite <- Hperm, Hh. solve_Permutation.
Qed.

Lemma arrivalInv_reachable B ixs :
  0 < B → ∀ s, rtc (step B) (init ixs) s → arrivalInv ixs s.
Proof.
  intros HB. apply (rtc_ind_r (arrivalInv ixs) (init ixs)).
  - destruct ixs; [done|by left].
  - intros s1 s2 _ Hs IH. by eapply arrivalInv_step.
Qed.

(** When every task has run, the order of completion is the one
    [Batch.arrivalOrder] describes: the order of the indices under the
    sequential branch; the first index, then some permutation of the
    others, under the concurrent branch. *)
Lemma completion_order_is_arrival_order B ixs s :
  rtc (step B) (init ixs) s → done_ s →
  (B = 0 → rev (finished s) = ixs) ∧
  (0 < B → match ixs with
           | [] => finished s = []
           | first :: rest =>
               ∃ spawned, spawned ≡ₚ rest ∧ rev (finished s) = first :: spawned
           end).
Proof.
  intros Hr (Hp & Ho & Hw & Hh). split.
  - intros ->. destruct (sequentialInv_reachable ixs s Hr) as (_ & _ & Hord).
    rewrite Hp, Ho in Hord. cbn in Hord. by rewrite app_nil_r in Hord.
  - intros HB. pose proof (arrivalInv_reachable B ixs HB s Hr) as Hinv.
    destruct ixs as [|first rest]; cbn in Hinv; [by subst|].
    destruct Hinv as [->|[(Ho' & _)|(_ & _ & later & Hf & Hperm)]];
      [done|congruence|].
    exists (rev later). rewrite Hh, Hw, Hp in Hperm.
    rewrite !app_nil_r in Hperm. split.
    + by rewrite <- Hperm, <- Permutation_rev.
    + by rewrite Hf, rev_app_distr.
Qed.

(** The goroutines never get stuck: as long as some task has not run
    to its end, one of them can take a step. *)
Lemma step_progress B ixs s :
  0 <= B → rtc (step B) (init ixs) s → done_ s ∨ ∃ s', step B s s'.
Proof.
  intros HB Hr.
  destruct (onMain s) as [idx|] eqn:Ho.
  { right. eexists. by apply (step_return B idx). }
  destruct (holding s) as [|h hs] eqn:Hh.
  2:{ right. eexists. by apply (step_release B h [] hs). }
  destruct (waiting s) as [|w ws] eqn:Hw.
  2:{ right. destruct (decide (B = 0)) as [->|Hne].
      - destruct (sequentialInv_reachable ixs s Hr) as (Hw' & _). congruence.
      - eexists. apply (step_acquire B w [] ws); [lia|done|].
        rewrite Hh. cbn. lia. }
  destruct (pending s) as [|idx rest] eqn:Hp; [by left|].
  right. destruct (decide (B = 0)) as [->|Hne].
  - eexists. by apply (step_sequential 0 idx rest).
  - destruct (decide (iter s = 0%nat)) as [Hit|Hit].
    + eexists. apply (step_first B idx rest); [lia|done..].
    + eexists. apply (step_spawn B idx rest); [lia|done..].
Qed.

End SchedFacts.

(** C5. Concurrency bound respected: for every bound [B > 0] and every
    sequence of indices, in every state the goroutines of [invoke] can
    reach the number of sub-task invocations executing at once is at
    most [B] (the first task runs on the calling goroutine, before
    anything is spawned; every other task holds a slot of the semaphore
    of capacity [B] while it runs); for [B = 0] no goroutine is spawned
    and at most one task executes at a time, every earlier index having
    finished before the next one starts. *)
Theorem concurrency_bound_respected (B : Z) (ixs : list Z) (s : Sched.state) :
  rtc (Sched.step B) (Sched.init ixs) s →
  (0 < B → Z.of_nat (Sched.executing s) <= B) ∧
  (B = 0 →
     (Sched.executing s <= 1)%nat ∧
     Sched.waiting s = [] ∧ Sched.holding s = [] ∧
     rev (Sched.finished s) ++ option_list (Sched.onMain s) ++ Sched.pending s
       = ixs).
Proof.
  intros Hr. split.
  - intros HB. destruct (concurrentInv_reachable B ixs HB s Hr) as (Hle & _ & Hm).
    unfold Sched.executing. destruct (Sched.onMain s) as [idx|] eqn:Ho.
    + destruct Hm as [_ ->]; [by right|]. cbn. lia.
    + cbn. lia.
  - intros ->. destruct (sequentialInv_reachable ixs s Hr) as (Hw & Hh & Hord).
    unfold Sched.executing. rewrite Hh.
    repeat split; try done. destruct (Sched.onMain s); cbn; lia.
Qed.


(** ** The claims on the document-review instantiation *)

Section DemoFacts.
Import Store Batch Demo.

Lemma reversed_perm (l : list (@taskResult demoEnv)) : reversed l ≡ₚ l.
Proof. unfold reversed. symmetry. apply Permutation_rev. Qed.

Lemma inOrder_perm (l : list (@taskResult demoEnv)) : inOrder l ≡ₚ l.
Proof. done. Qed.

Lemma afterFirstRun_valid : validState afterFirstRun.
Proof.
  constructor; cbn.
  - done.
  - repeat constructor; by eexists.
  - repeat constructor; lia.
  - apply NoDup_cons. split; [|apply NoDup_singleton].
    intros H%list_elem_of_singleton. lia.
  - intros i v H.
    apply lookup_insert_Some in H as [[<- <-]|[_ H]];
      [|apply lookup_singleton_Some in H as [<- <-]].
    all: split; [lia|]; split; [by eexists|].
    all: intros H; repeat (apply elem_of_cons in H as [H|H]; [lia|]);
      by apply elem_of_nil in H.
Qed.

(** The composite suspension scenario: four documents, 0 and 2
    suspend, 1 and 3 succeed; the resume with both approvals returns
    four outputs, those of 1 and 3 as produced on the first pass. *)
Lemma composite_suspension_scenario :
  res (Invoke (reviewer 0) firstRun [0; 1; 2; 3] inOrder)
    = Return None
        (Some (CompositeInterrupt afterFirstRun [NeedsApproval; NeedsApproval])) ∧
  Invoke (approver 0) (resumeWith afterFirstRun) [] inOrder
    = {| trace := [EvCompile; EvInvoke (mkCall 0 0); EvInvoke (mkCall 2 2)];
         res := Return (Some ["approved:0"; "ok:batch_1";
                              "approved:2"; "ok:batch_3"]%string) None |}.
Proof. split; vm_compute; reflexivity. Qed.

End DemoFacts.

(** C1 as stated fails.  On a resume the input sequence is not read
    (node.go, lines 116-129): resumed from [afterFirstRun] with the two
    inputs 5 and 6, the task is invoked for the indices 0 and 2 on the
    stored inputs 0 and 2, both invocations return an output and no
    error, and [Invoke] returns four outputs for two inputs, the second
    being the stored result of the earlier run and not the task's
    output for input 6.  And a first run on two inputs whose inner task
    does not compile invokes nothing, so that no invocation fails, and
    returns the compile error. *)
Lemma all_success_order_preservation_counterexample :
  Batch.Invoke (Demo.approver 2) (Demo.resumeWith Demo.afterFirstRun)
               [5; 6] Demo.reversed
  = {| Batch.trace := [Batch.EvCompile; Batch.EvInvoke (Batch.mkCall 0 0);
                       Batch.EvInvoke (Batch.mkCall 2 2)];
       Batch.res := Batch.Return (Some ["approved:0"; "ok:batch_1";
                                        "approved:2"; "ok:batch_3"]%string) None |} ∧
  snd (Demo.approved (Batch.mkCall 0 0)) = None ∧
  snd (Demo.approved (Batch.mkCall 2 2)) = None ∧
  fst (Demo.approved (Batch.mkCall 1 6)) = "approved:1"%string ∧
  Batch.Invoke Demo.broken Demo.firstRun [1; 2] Demo.inOrder
  = {| Batch.trace := [Batch.EvCompile];
       Batch.res := Batch.Return None
                      (Some (Batch.CompileFailed Demo.GraphInvalid)) |}.
Proof. repeat split; vm_compute; reflexivity. Qed.

(** C1, amended, on the demo: three documents approved at once,
    results received in reverse order of spawning. *)
Lemma all_success_order_preservation_witness :
  ∃ outs,
    Batch.res (Batch.Invoke (Demo.reviewer 2) Demo.firstRun [1; 3; 5] Demo.reversed)
      = Batch.Return (Some outs) None ∧
    length outs = 3%nat ∧
    ∀ (i : nat) x, [1; 3; 5] !! i = Some x →
      outs !! i = Some (fst (Demo.review (Batch.mkCall (Z.of_nat i) x))).
Proof.
  apply (all_success_order_preservation
           (Demo.reviewer 2) Demo.firstRun [1; 3; 5] Demo.reversed Demo.review).
  - reflexivity.
  - cbn. lia.
  - apply reversed_perm.
  - reflexivity.
  - intros [|[|[|i]]] x H; cbn in H; simplify_eq; reflexivity.
Defined.

(** C2, on the demo: document 7 fails validation at index 1; its
    result arrives last, after a success, an interrupt and a success. *)
Lemma fail_fast_on_ordinary_failure_witness :
  Batch.res (Batch.Invoke (Demo.reviewer 2) Demo.firstRun [1; 7; 5; 0] Demo.reversed)
  = Batch.Return None (Some (Batch.TaskFailed 1 Demo.ValidationFailed)).
Proof.
  apply (fail_fast_on_ordinary_failure
           (Demo.reviewer 2) Demo.firstRun [1; 7; 5; 0] Demo.reversed
           [ @Batch.Build_taskResult Demo.demoEnv 0 "ok:batch_0" None;
             @Batch.Build_taskResult Demo.demoEnv 3 EmptyString (Some Demo.NeedsApproval);
             @Batch.Build_taskResult Demo.demoEnv 2 "ok:batch_2" None ]
           []
           (@Batch.Build_taskResult Demo.demoEnv 1 EmptyString (Some Demo.ValidationFailed))
           Demo.ValidationFailed).
  - apply reversed_perm.
  - reflexivity.
  - repeat (apply Forall_cons; split;
            [intros (e & He & Hx); cbn in He; try discriminate;
             injection He as <-; vm_compute in Hx; discriminate|]).
    apply Forall_nil_2.
  - reflexivity.
  - reflexivity.
Defined.

(** C3 on the code: a first run on documents 0 and 1 suspends with
    document 1 completed; the resume in which document 0 still waits
    suspends again, and the state it builds has lost the completed
    result of index 1, so that the next resume returns the zero value
    in that slot. *)
Theorem suspension_bundling_drops_prior_results :
  Batch.res (Batch.Invoke (Demo.reviewer 0) Demo.firstRun [0; 1] Demo.inOrder)
    = Batch.Return None
        (Some (Batch.CompositeInterrupt Demo.oneWaiting [Demo.NeedsApproval])) ∧
  Batch.CompletedResults Demo.oneWaiting !! 1
    = Some (Demo.AnyStr "ok:batch_1") ∧
  Batch.res (Batch.Invoke (Demo.reviewer 0) (Demo.resumeWith Demo.oneWaiting)
                          [] Demo.inOrder)
    = Batch.Return None
        (Some (Batch.CompositeInterrupt Demo.stillWaiting [Demo.NeedsApproval])) ∧
  Batch.CompletedResults Demo.stillWaiting !! 1 = None ∧
  Batch.res (Batch.Invoke (Demo.approver 0) (Demo.resumeWith Demo.stillWaiting)
                          [] Demo.inOrder)
    = Batch.Return (Some ["approved:0"%string; EmptyString]) None.
Proof. repeat split; vm_compute; reflexivity. Qed.

(** C4 as stated fails: with a valid state whose indices 0 and 2 are
    interrupted, a resume whose inner task does not compile invokes
    nothing. *)
Lemma resume_reexecution_counterexample :
  Batch.validState Demo.afterFirstRun ∧
  Batch.InterruptedIndices Demo.afterFirstRun = [0; 2] ∧
  Batch.invokedIndices
    (Batch.trace (Batch.Invoke Demo.broken (Demo.resumeWith Demo.afterFirstRun)
                               [] Demo.inOrder)) = [].
Proof. split; [apply afterFirstRun_valid|]. split; reflexivity. Qed.

(** C4, amended, on the demo: the resume of [afterFirstRun] invokes
    the task for indices 0 and 2 only. *)
Lemma resume_reexecution_exactness_witness :
  Batch.invokedIndices
    (Batch.trace (Batch.Invoke (Demo.approver 2) (Demo.resumeWith Demo.afterFirstRun)
                               [] Demo.reversed)) = [0; 2].
Proof.
  refine (proj1 (resume_reexecution_exactness
                   (Demo.approver 2) (Demo.resumeWith Demo.afterFirstRun) []
                   Demo.reversed Demo.afterFirstRun Demo.approved _ _ _ _ _)).
  - reflexivity.
  - apply afterFirstRun_valid.
  - cbn. lia.
  - apply reversed_perm.
  - reflexivity.
Defined.

(** C5, on a run with bound 2 over five indices: two spawned tasks
    execute while a third waits for a slot. *)
Lemma concurrency_bound_respected_witness :
  Z.of_nat (Sched.executing Sched.twoRunning) <= 2.
Proof.
  refine (proj1 (concurrency_bound_respected 2 [0; 1; 2; 3; 4]
                   Sched.twoRunning _) _); [|lia].
  eapply rtc_l; [apply (Sched.step_first 2 0 [1; 2; 3; 4]); [lia|done..]|].
  eapply rtc_l; [apply (Sched.step_return 2 0); done|].
  eapply rtc_l; [apply (Sched.step_spawn 2 1 [2; 3; 4]); [lia|done..]|].
  eapply rtc_l; [apply (Sched.step_spawn 2 2 [3; 4]); [lia|done..]|].
  eapply rtc_l; [apply (Sched.step_spawn 2 3 [4]); [lia|done..]|].
  eapply rtc_l; [apply (Sched.step_acquire 2 1 [3; 2] []); [lia|done|cbn; lia]|].
  eapply rtc_l; [apply (Sched.step_acquire 2 2 [3] []); [lia|done|cbn; lia]|].
  apply rtc_refl.
Defined.





(** C8, on the demo. *)
Lemma dispatch_error_abort_witness :
  Batch.res (Batch.Invoke Demo.broken Demo.firstRun [1; 2] Demo.inOrder)
    = Batch.Return None (Some (Batch.CompileFailed Demo.GraphInvalid)) ∧
  Batch.invokedIndices
    (Batch.trace (Batch.Invoke Demo.broken Demo.firstRun [1; 2] Demo.inOrder)) = [].
Proof.
  apply (dispatch_error_abort Demo.broken Demo.firstRun [1; 2] Demo.inOrder
                              Demo.GraphInvalid).
  - vm_compute. apply list_elem_of_here.
  - reflexivity.
Defined.

(** C10 on the code: a completed result stored under the key [-1]
    passes the guard [idx < len(outputs)] and the write to
    [outputs[-1]] panics, whereas the entry is convertible and the
    state is otherwise well formed. *)
Theorem negative_key_restoration_panics :
  Batch.assertO (Demo.AnyStr "stray") = Some "stray"%string ∧
  Batch.restoreCompleted (Batch.CompletedResults Demo.negativeKey) [EmptyString]
    = None ∧
  Batch.Invoke (Demo.approver 0) (Demo.resumeWith Demo.negativeKey) [] Demo.inOrder
    = {| Batch.trace := []; Batch.res := Batch.Panic |}.
Proof. repeat split; vm_compute; reflexivity. Qed.

(** * Further properties of store.go *)

Section StoreMore.
Import GoStd Store.

Lemma Atoi_fmtInt_negative i : minInt <= i < 0 → Atoi (fmtInt i) = Some i.
Proof.
  intros Hi. unfold fmtInt.
  destruct (i <? 0) eqn:E; [|apply Z.ltb_ge in E; lia].
  pose proof (parseDigits_fmtDigits 20 (- i) EmptyString) as Hp.
  destruct (fmtDigits_head 19 (- i) EmptyString) as (d & rest & Hd & Heq); [lia|].
  rewrite Heq in *. unfold Atoi.
  change (Ascii.eqb "-" "-") with true. cbn [orb].
  rewrite Hp; [|unfold minInt in Hi; lia].
  cbn [parseDigits]. rewrite Z.opp_involutive.
  unfold minInt, maxInt in *.
  destruct (- 2 ^ 63 <=? i) eqn:E1; [|apply Z.leb_gt in E1; lia].
  destruct (i <=? 2 ^ 63 - 1) eqn:E2; [|apply Z.leb_gt in E2; lia].
  reflexivity.
Qed.

Lemma parseBatchIndex_make_int i :
  minInt <= i <= maxInt → parseBatchIndex (makeBatchCheckpointID i) = inl i.
Proof.
  intros Hi. destruct (decide (0 <= i)) as [H0|H0].
  - apply parseBatchIndex_make. lia.
  - unfold parseBatchIndex, makeBatchCheckpointID.
    assert (HasPrefix (String.append "batch_" (fmtInt i)) "batch_" = true)
      as -> by reflexivity.
    assert (TrimPrefix (String.append "batch_" (fmtInt i)) "batch_" = fmtInt i)
      as -> by reflexivity.
    cbn [negb]. rewrite Atoi_fmtInt_negative by lia. done.
Qed.

Lemma parseBatchIndex_prefixed s :
  parseBatchIndex (String.append "batch_" s) =
  match Atoi s with Some n => inl n | None => inr (ErrAtoi s) end.
Proof. reflexivity. Qed.

Lemma Atoi_range s i : Atoi s = Some i → minInt <= i <= maxInt.
Proof.
  unfold Atoi. destruct s as [|c rest]; [done|].
  cbv zeta.
  destruct (if Ascii.eqb c "-" || Ascii.eqb c "+" then rest else String c rest);
    [done|].
  destruct (parseDigits _ 0) as [n|]; [|done].
  destruct (minInt <=? _) eqn:E1; [|done].
  destruct (_ <=? maxInt) eqn:E2; [|done].
  cbn [andb]. intros [= <-].
  apply Z.leb_le in E1, E2. lia.
Qed.

Lemma parseBatchIndex_range id i :
  parseBatchIndex id = inl i → minInt <= i <= maxInt.
Proof.
  unfold parseBatchIndex.
  destruct (negb (HasPrefix id "batch_")); [done|].
  cbv zeta. destruct (Atoi _) as [n|] eqn:Ha; [|done].
  intros [= <-]. by eapply Atoi_range.
Qed.

Lemma parseDigits_leading_zero s : parseDigits (String "0" s) 0 = parseDigits s 0.
Proof. reflexivity. Qed.

Lemma Atoi_plus_or_zero i :
  0 <= i <= maxInt →
  Atoi (String "+" (fmtInt i)) = Some i ∧ Atoi (String "0" (fmtInt i)) = Some i.
Proof.
  intros Hi. pose proof (Atoi_fmtInt i Hi) as Ha.
  unfold fmtInt in *.
  destruct (i <? 0) eqn:E; [apply Z.ltb_lt in E; lia|].
  destruct (fmtDigits_head 19 i EmptyString) as (d & rest & Hd & Heq); [lia|].
  rewrite Heq in *. unfold Atoi in *.
  destruct (digitChar_not_sign d Hd) as [E1 E2]. rewrite E1, E2 in Ha.
  cbn [orb] in Ha.
  change (Ascii.eqb "+" "-") with false. change (Ascii.eqb "+" "+") with true.
  change (Ascii.eqb "0" "-") with false. change (Ascii.eqb "0" "+") with false.
  cbn [orb]. rewrite parseDigits_leading_zero. done.
Qed.

Lemma applySets_app m calls1 calls2 :
  applySets m (calls1 ++ calls2) = applySets (applySets m calls1) calls2.
Proof. unfold applySets. apply fold_left_app. Qed.

Lemma applySets_lookup_other calls : ∀ m i,
  (∀ c, c ∈ calls → parseBatchIndex (fst c) ≠ inl i) →
  data (applySets m calls) !! i = data m !! i.
Proof.
  induction calls as [|c calls IH]; intros m i Hc; [done|].
  change (applySets m (c :: calls))
    with (applySets (fst (Set_ m (fst c) (snd c))) calls).
  rewrite IH.
  - unfold Set_. destruct (parseBatchIndex (fst c)) as [j|e] eqn:E; [|done].
    cbn. apply lookup_insert_ne.
    intros ->. eapply Hc; [|exact E]. left.
  - intros c' Hin. apply Hc. by right.
Qed.

End StoreMore.

(** X1. The checkpoint ID of every [int] index, negative ones included,
    parses back to that index. *)
Theorem checkpoint_id_round_trip_all_ints (i : Z) :
  GoStd.minInt <= i <= GoStd.maxInt →
  Store.parseBatchIndex (Store.makeBatchCheckpointID i) = inl i.
Proof. apply parseBatchIndex_make_int. Qed.

Lemma checkpoint_id_round_trip_all_ints_witness :
  Store.parseBatchIndex (Store.makeBatchCheckpointID (-17)) = inl (-17).
Proof.
  apply (checkpoint_id_round_trip_all_ints (-17)).
  unfold GoStd.minInt, GoStd.maxInt. lia.
Defined.

(** X2. Per-index isolation: a [Set] under the checkpoint ID of one
    index leaves what [Get] returns under the ID of any other index
    unchanged; in particular distinct indices have distinct IDs. *)
Theorem store_isolates_indices (i j : Z) (m : Store.batchBridgeStore)
    (b : list Byte.byte) :
  GoStd.minInt <= i <= GoStd.maxInt →
  GoStd.minInt <= j <= GoStd.maxInt →
  i ≠ j →
  Store.makeBatchCheckpointID i ≠ Store.makeBatchCheckpointID j ∧
  Store.Get (fst (Store.Set_ m (Store.makeBatchCheckpointID i) b))
            (Store.makeBatchCheckpointID j)
  = Store.Get m (Store.makeBatchCheckpointID j).
Proof.
  intros Hi Hj Hne.
  pose proof (parseBatchIndex_make_int i Hi) as Pi.
  pose proof (parseBatchIndex_make_int j Hj) as Pj.
  split.
  - intros E. rewrite E, Pj in Pi. by simplify_eq.
  - unfold Store.Set_, Store.Get. rewrite Pi, Pj. cbn [fst Store.data].
    by rewrite lookup_insert_ne.
Qed.

Lemma store_isolates_indices_witness :
  Store.makeBatchCheckpointID 1 ≠ Store.makeBatchCheckpointID 11 ∧
  Store.Get (fst (Store.Set_ Store.newBatchBridgeStore
                             (Store.makeBatchCheckpointID 1) []))
            (Store.makeBatchCheckpointID 11)
  = Store.Get Store.newBatchBridgeStore (Store.makeBatchCheckpointID 11).
Proof.
  apply (store_isolates_indices 1 11 Store.newBatchBridgeStore []);
    unfold GoStd.minInt, GoStd.maxInt; lia.
Defined.

(** X3. Every checkpoint ID the store accepts is an alias of the
    canonical one: when [parseBatchIndex] returns an index for an ID,
    whatever its spelling (a sign, leading zeros), that index is in the
    range of an [int], and [Get] and [Set] under the ID do exactly what
    they do under [makeBatchCheckpointID] of the index. *)
Theorem accepted_checkpoint_id_is_canonical (id : string) (i : Z)
    (m : Store.batchBridgeStore) (b : list Byte.byte) :
  Store.parseBatchIndex id = inl i →
  GoStd.minInt <= i <= GoStd.maxInt ∧
  Store.Get m id = Store.Get m (Store.makeBatchCheckpointID i) ∧
  Store.Set_ m id b = Store.Set_ m (Store.makeBatchCheckpointID i) b.
Proof.
  intros Hp. pose proof (parseBatchIndex_range _ _ Hp) as Hi.
  split; [done|].
  unfold Store.Get, Store.Set_.
  by rewrite Hp, (parseBatchIndex_make_int i Hi).
Qed.

Lemma accepted_checkpoint_id_is_canonical_witness :
  GoStd.minInt <= -7 <= GoStd.maxInt ∧
  Store.Get Store.newBatchBridgeStore "batch_-007"
    = Store.Get Store.newBatchBridgeStore (Store.makeBatchCheckpointID (-7)) ∧
  Store.Set_ Store.newBatchBridgeStore "batch_-007" []
    = Store.Set_ Store.newBatchBridgeStore (Store.makeBatchCheckpointID (-7)) [].
Proof.
  apply (accepted_checkpoint_id_is_canonical "batch_-007" (-7)
           Store.newBatchBridgeStore []).
  reflexivity.
Defined.

(** X4. Last write wins: after any history of [Set] calls, [Get] under
    the ID of an index returns the bytes of the latest [Set] whose ID
    parsed to that index, whatever was written to other indices or
    refused afterwards. *)
Theorem store_last_write_wins (i : Z) (m : Store.batchBridgeStore)
    (before after : list (string * list Byte.byte))
    (id : string) (b : list Byte.byte) :
  GoStd.minInt <= i <= GoStd.maxInt →
  Store.parseBatchIndex id = inl i →
  (∀ c, c ∈ after → Store.parseBatchIndex (fst c) ≠ inl i) →
  Store.Get (Store.applySets m (before ++ (id, b) :: after))
            (Store.makeBatchCheckpointID i)
  = (Some b, true, None).
Proof.
  intros Hi Hid Hafter.
  rewrite applySets_app. cbn [Store.applySets fold_left].
  change (fold_left _ after ?x) with (Store.applySets x after).
  unfold Store.Get. rewrite (parseBatchIndex_make_int i Hi).
  rewrite applySets_lookup_other by done.
  cbn [fst snd]. unfold Store.Set_. rewrite Hid. cbn [fst Store.data].
  by rewrite lookup_insert_eq.
Qed.

Lemma store_last_write_wins_witness :
  Store.Get (Store.applySets Store.newBatchBridgeStore
               ([("batch_2"%string, [Byte.x01])]
                ++ ("batch_2"%string, [Byte.x02])
                :: [("batch_3"%string, [Byte.x03]);
                    ("other"%string, [Byte.x04])]))
            (Store.makeBatchCheckpointID 2)
  = (Some [Byte.x02], true, None).
Proof.
  apply (store_last_write_wins 2 Store.newBatchBridgeStore
           [("batch_2"%string, [Byte.x01])]
           [("batch_3"%string, [Byte.x03]); ("other"%string, [Byte.x04])]
           "batch_2" [Byte.x02]).
  - unfold GoStd.minInt, GoStd.maxInt. lia.
  - reflexivity.
  - intros c Hc.
    apply elem_of_cons in Hc as [->|Hc]; [vm_compute; discriminate|].
    apply list_elem_of_singleton in Hc as ->. vm_compute. discriminate.
Defined.

(** X5. The store is keyed by the parsed index, not by the ID string:
    an ID that writes the index with a plus sign or a leading zero
    addresses the same entry as the ID [makeBatchCheckpointID] builds. *)
Theorem store_ids_alias_by_index (i : Z) (m : Store.batchBridgeStore)
    (b : list Byte.byte) :
  0 <= i <= GoStd.maxInt →
  Store.Get (fst (Store.Set_ m (String.append "batch_+" (GoStd.fmtInt i)) b))
            (Store.makeBatchCheckpointID i) = (Some b, true, None) ∧
  Store.Get (fst (Store.Set_ m (String.append "batch_0" (GoStd.fmtInt i)) b))
            (Store.makeBatchCheckpointID i) = (Some b, true, None).
Proof.
  intros Hi. destruct (Atoi_plus_or_zero i Hi) as [Hplus Hzero].
  assert (Store.parseBatchIndex (String.append "batch_+" (GoStd.fmtInt i)) = inl i)
    as P1.
  { change (String.append "batch_+" (GoStd.fmtInt i))
      with (String.append "batch_" (String "+" (GoStd.fmtInt i))).
    by rewrite parseBatchIndex_prefixed, Hplus. }
  assert (Store.parseBatchIndex (String.append "batch_0" (GoStd.fmtInt i)) = inl i)
    as P2.
  { change (String.append "batch_0" (GoStd.fmtInt i))
      with (String.append "batch_" (String "0" (GoStd.fmtInt i))).
    by rewrite parseBatchIndex_prefixed, Hzero. }
  unfold Store.Set_, Store.Get. rewrite P1, P2.
  rewrite (parseBatchIndex_make i Hi). cbn [fst Store.data].
  by rewrite !lookup_insert_eq.
Qed.

Lemma store_ids_alias_by_index_witness :
  Store.Get (fst (Store.Set_ Store.newBatchBridgeStore "batch_+7" [Byte.x01]))
            "batch_7" = (Some [Byte.x01], true, None) ∧
  Store.Get (fst (Store.Set_ Store.newBatchBridgeStore "batch_07" [Byte.x01]))
            "batch_7" = (Some [Byte.x01], true, None).
Proof.
  apply (store_ids_alias_by_index 7 Store.newBatchBridgeStore [Byte.x01]).
  unfold GoStd.maxInt. lia.
Defined.

(** * Further properties of node.go *)

Section OutcomeFacts.
Import Store Batch NodeApi.
Context `{env : Env}.

(** What [dispatch] returns when no index is out of range: one call
    and one result per index, in the order of the indices. *)
Lemma dispatch_Some (runner : Runnable) (eff : list I) ixs : ∀ evs rs,
  dispatch runner eff ixs = (evs, Some rs) →
  Forall2 (λ i ev, ∃ x, getIndex eff i = Some x ∧ ev = EvInvoke (mkCall i x))
          ixs evs ∧
  Forall2 (λ i r, ∃ x, getIndex eff i = Some x ∧ r = runTask runner i x) ixs rs.
Proof.
  induction ixs as [|i ixs IH]; intros evs rs H.
  - cbn in H. simplify_eq. split; constructor.
  - cbn in H. destruct (getIndex eff i) as [x|] eqn:Hx; [|done].
    destruct (dispatch runner eff ixs) as [evs' [rs'|]]; [|done].
    cbn in H. simplify_eq. destruct (IH _ _ eq_refl) as [He Hr].
    split; constructor; eauto.
Qed.

Lemma dispatch_results_form (runner : Runnable) (eff : list I) ixs evs rs :
  dispatch runner eff ixs = (evs, Some rs) →
  Forall (λ r, ∃ x, getIndex eff (index r) = Some x ∧
                    r = runTask runner (index r) x) rs.
Proof.
  intros H. apply dispatch_Some in H as [_ H].
  induction H as [|i r ixs' rs' (x & Hx & ->) _ IH]; constructor; [|done].
  exists x. by rewrite index_runTask.
Qed.

Lemma dispatch_outputs_functional (runner : Runnable) (eff : list I) ixs evs rs :
  dispatch runner eff ixs = (evs, Some rs) →
  Forall (λ r, err r = None → output r = outputOf runner eff (index r)) rs.
Proof.
  intros H. eapply Forall_impl; [by eapply dispatch_results_form|]. cbn.
  intros r (x & Hx & Hrun) _. unfold outputOf. rewrite Hx.
  rewrite Hrun at 1. by rewrite output_runTask.
Qed.

(** [normalErr] stays nil exactly when no ordinary failure arrives. *)
Lemma collect_normalErr_None_iff arrival : ∀ c c',
  normalErr c = None → collect c arrival = Some c' →
  (normalErr c' = None ↔ Forall (λ r, ¬ ordinaryFailure r) arrival).
Proof.
  induction arrival as [|r arrival IH]; intros c c' Hn Hc.
  - cbn in Hc. simplify_eq. split; [constructor|done].
  - cbn in Hc. destruct (collectOne c r) as [c1|] eqn:H1; [|done].
    cbn in Hc. rewrite Forall_cons.
    unfold collectOne in H1. destruct (err r) as [e|] eqn:Er.
    + destruct (ExtractInterruptInfo e) eqn:Ex.
      * simplify_eq. pose proof (λ H, IH _ c' H Hc) as IHc. cbn in IHc.
        rewrite (IHc Hn). split; [|tauto].
        intros H. split; [|done]. intros (e' & He' & Hx'). congruence.
      * rewrite Hn in H1. simplify_eq.
        assert (normalErr c' = Some (TaskFailed (index r) e)) as ->
          by (eapply collect_normalErr_sticky; [|exact Hc]; done).
        split; [done|]. intros [Hr _]. destruct Hr. by exists e.
    + destruct (setIndex _ _ _) as [o|]; [|done]. cbn in H1. simplify_eq.
      pose proof (λ H, IH _ c' H Hc) as IHc. cbn in IHc.
      rewrite (IHc Hn). split; [|tauto].
      intros H. split; [|done]. intros (e' & He' & _). congruence.
Qed.

(** The failure that is kept was received. *)
Lemma collect_normalErr_origin arrival : ∀ c c' i e,
  normalErr c = None → collect c arrival = Some c' →
  normalErr c' = Some (TaskFailed i e) →
  ∃ r, r ∈ arrival ∧ index r = i ∧ err r = Some e ∧
       ExtractInterruptInfo e = false.
Proof.
  induction arrival as [|r arrival IH]; intros c c' i e Hn Hc He.
  - cbn in Hc. congruence.
  - cbn in Hc. destruct (collectOne c r) as [c1|] eqn:H1; [|done].
    cbn in Hc. unfold collectOne in H1. destruct (err r) as [e1|] eqn:Er.
    + destruct (ExtractInterruptInfo e1) eqn:Ex.
      * simplify_eq.
        pose proof (λ H, IH _ c' i e H Hc He) as IHc. cbn in IHc.
        destruct (IHc Hn) as (r' & Hin & ?).
        exists r'. split; [by right|done].
      * rewrite Hn in H1. simplify_eq.
        assert (normalErr c' = Some (TaskFailed (index r) e1)) as Hs
          by (eapply collect_normalErr_sticky; [|exact Hc]; done).
        rewrite Hs in He. simplify_eq. exists r. split; [left|done].
    + destruct (setIndex _ _ _) as [o|]; [|done]. cbn in H1. simplify_eq.
      pose proof (λ H, IH _ c' i e H Hc He) as IHc. cbn in IHc.
      destruct (IHc Hn) as (r' & Hin & ?).
      exists r'. split; [by right|done].
Qed.

Lemma no_failure_no_suspension (rs : list taskResult) :
  Forall (λ r, ¬ ordinaryFailure r) rs → suspensions rs = [] →
  Forall (λ r, err r = None) rs.
Proof.
  induction rs as [|r rs IH]; [constructor|].
  rewrite Forall_cons, suspensions_cons. intros [Hr Hrs] Hs.
  destruct (err r) as [e|] eqn:Er.
  - destruct (ExtractInterruptInfo e) eqn:Ex; [done|].
    destruct Hr. by exists e.
  - constructor; [done|]. by apply IH.
Qed.

Lemma successIndices_perm (l1 l2 : list taskResult) :
  l1 ≡ₚ l2 → successIndices l1 ≡ₚ successIndices l2.
Proof. intros H. unfold successIndices. by rewrite H. Qed.

Lemma suspensions_perm (l1 l2 : list taskResult) :
  l1 ≡ₚ l2 → suspensions l1 ≡ₚ suspensions l2.
Proof. intros H. unfold suspensions. by rewrite H. Qed.

Lemma collect_length arrival : ∀ c c',
  collect c arrival = Some c' → length (outputs c') = length (outputs c).
Proof.
  induction arrival as [|r l IH]; intros c c' H; cbn in H; [by simplify_eq|].
  destruct (collectOne c r) as [c1|] eqn:E; [|done]. cbn in H.
  rewrite (IH _ _ H). by apply collectOne_length in E.
Qed.

(** Collecting the same results in two orders ends in collectors that
    agree on everything but the order of the interrupt signals. *)
Lemma collect_same_up_to_order (g : Z → O) outs arrival1 arrival2 c1 c2 :
  arrival1 ≡ₚ arrival2 →
  Forall (λ r, err r = None → output r = g (index r)) arrival1 →
  collect (newCollector outs) arrival1 = Some c1 →
  collect (newCollector outs) arrival2 = Some c2 →
  (normalErr c1 = None ↔ normalErr c2 = None) ∧
  interruptErrs c1 ≡ₚ interruptErrs c2 ∧
  interruptedIndices c1 ≡ₚ interruptedIndices c2 ∧
  completedResults c1 = completedResults c2 ∧
  outputs c1 = outputs c2.
Proof.
  intros Hperm Hg1 H1 H2.
  assert (Forall (λ r, err r = None → output r = g (index r)) arrival2) as Hg2
    by by rewrite <- Hperm.
  split.
  { rewrite (collect_normalErr_None_iff _ (newCollector outs) _ eq_refl H1).
    rewrite (collect_normalErr_None_iff _ (newCollector outs) _ eq_refl H2).
    by rewrite Hperm. }
  destruct (collect_suspensions _ _ _ H1) as [E1 I1].
  destruct (collect_suspensions _ _ _ H2) as [E2 I2].
  cbn in E1, I1, E2, I2.
  split; [by rewrite E1, E2, (suspensions_perm _ _ Hperm)|].
  split; [by rewrite I1, I2, (suspensions_perm _ _ Hperm)|].
  destruct (collect_successes g _ _ _ H1 Hg1) as [M1 O1].
  destruct (collect_successes g _ _ _ H2 Hg2) as [M2 O2].
  pose proof (successIndices_perm _ _ Hperm) as Hs.
  assert (∀ k, k ∈ successIndices arrival1 ↔ k ∈ successIndices arrival2) as Hmem.
  { intros k. by rewrite Hs. }
  split.
  - apply map_eq. intros k. rewrite M1, M2.
    destruct (decide (k ∈ successIndices arrival1)) as [Hk|Hk].
    + rewrite decide_True; [done|]. by apply Hmem.
    + rewrite decide_False; [done|]. by rewrite <- Hmem.
  - pose proof (collect_length _ _ _ H1) as L1.
    pose proof (collect_length _ _ _ H2) as L2. cbn in L1, L2.
    apply list_eq. intros i.
    destruct (decide (i < length outs)%nat) as [Hi|Hi].
    + rewrite O1, O2 by done.
      destruct (decide (Z.of_nat i ∈ successIndices arrival1)) as [Hk|Hk].
      * rewrite decide_True; [done|]. by apply Hmem.
      * rewrite decide_False; [done|]. by rewrite <- Hmem.
    + rewrite !lookup_ge_None_2; [done|lia|lia].
Qed.

(** [Invoke] adds nothing to the result of [invoke]: an error always
    comes with nil outputs already. *)
Lemma Invoke_invoke b ctx (inputs : list I) arrive :
  Invoke b ctx inputs arrive = invoke b ctx inputs arrive.
Proof.
  unfold Invoke.
  assert (∀ r : run, (∀ o e, res r ≠ Return (Some o) (Some e)) →
            {| trace := trace r;
               res := match res r with
                      | Return _ (Some e) => Return None (Some e)
                      | other => other
                      end |} = r) as Hid.
  { intros [t [|[o|] [e|]]] H; cbn in *; try done. by destruct (H o e). }
  apply Hid. intros o e. unfold invoke.
  destruct (prepare ctx inputs) as [[[ixs eff] outs]|]; [|done].
  destruct (innerTask b newBatchBridgeStore) as [runner|]; [|done].
  destruct (length ixs =? 0)%nat; [done|].
  destruct (maxConcurrency b <? 0); [done|].
  destruct (dispatch runner eff ixs) as [evs [rs|]]; [|done]. cbn.
  destruct (collect _ _) as [c|]; [|done].
  unfold finish. destruct (normalErr c); [done|].
  by destruct (0 <? length (interruptErrs c))%nat.
Qed.

(** Two nodes with the same inner task, run on the same invocation
    under bounds that are both negative or both not, with any two
    schedules, make the same calls and end alike. *)
Lemma outcome_independent_of_bound b1 b2 ctx (inputs : list I) arrive1 arrive2 :
  innerTask b1 = innerTask b2 →
  (maxConcurrency b1 <? 0) = (maxConcurrency b2 <? 0) →
  (∀ l, arrive1 l ≡ₚ l) →
  (∀ l, arrive2 l ≡ₚ l) →
  trace (Invoke b1 ctx inputs arrive1) = trace (Invoke b2 ctx inputs arrive2) ∧
  sameOutcome (res (Invoke b1 ctx inputs arrive1))
              (res (Invoke b2 ctx inputs arrive2)).
Proof.
  intros Ht Hb Ha1 Ha2. rewrite !Invoke_invoke. unfold invoke.
  rewrite <- Ht, <- Hb.
  destruct (prepare ctx inputs) as [[[ixs eff] outs]|] eqn:Hp; [|done].
  destruct (innerTask b1 newBatchBridgeStore) as [runner|]; [|done].
  destruct (length ixs =? 0)%nat; [done|].
  destruct (maxConcurrency b1 <? 0); [done|].
  destruct (dispatch runner eff ixs) as [evs [rs|]] eqn:Hd; [|done].
  cbn [trace res]. split; [done|].
  pose proof (prepare_lengths _ _ _ _ _ Hp) as Hlen.
  destruct (dispatch_results_in_range _ _ _ _ _ Hd) as (Hin & _ & _).
  pose proof (arrivalOrder_perm (maxConcurrency b1) arrive1 rs Ha1) as P1.
  pose proof (arrivalOrder_perm (maxConcurrency b2) arrive2 rs Ha2) as P2.
  destruct (collect_total (arrivalOrder (maxConcurrency b1) arrive1 rs)
              (newCollector outs)) as (c1 & H1 & _).
  { rewrite P1. cbn. by rewrite Hlen. }
  destruct (collect_total (arrivalOrder (maxConcurrency b2) arrive2 rs)
              (newCollector outs)) as (c2 & H2 & _).
  { rewrite P2. cbn. by rewrite Hlen. }
  rewrite H1, H2.
  destruct (collect_same_up_to_order (outputOf runner eff) outs
              (arrivalOrder (maxConcurrency b1) arrive1 rs)
              (arrivalOrder (maxConcurrency b2) arrive2 rs) c1 c2)
    as (Hn & He & Hi & Hm & Ho); try done.
  { by rewrite P1, P2. }
  { rewrite P1. by eapply dispatch_outputs_functional. }
  unfold finish.
  destruct (normalErr c1) as [e1|] eqn:N1.
  - destruct (normalErr c2) as [e2|] eqn:N2.
    + assert (∃ i e', e1 = TaskFailed i e') as (i1 & e1' & ->)
        by (eapply collect_normalErr_shape; [|exact H1|exact N1]; done).
      assert (∃ i e', e2 = TaskFailed i e') as (i2 & e2' & ->)
        by (eapply collect_normalErr_shape; [|exact H2|exact N2]; done).
      done.
    + destruct Hn as [_ Hn]. by specialize (Hn eq_refl).
  - destruct (normalErr c2) as [e2|] eqn:N2.
    + destruct Hn as [Hn _]. by specialize (Hn eq_refl).
    + pose proof (Permutation_length He) as Hl. rewrite <- Hl.
      destruct (0 <? length (interruptErrs c1))%nat.
      * cbn. by rewrite Hm.
      * cbn. done.
Qed.

End OutcomeFacts.

(** X6. Schedule independence: two invocations that differ only in the
    order in which the spawned tasks' results are received make the same
    calls and end alike: the same outputs, or both an ordinary failure,
    or composite interrupts whose states hold the same inputs, the same
    completed results, the same count, and the same interrupted indices
    and signals up to their order. *)
Theorem outcome_is_schedule_independent `{env : Batch.Env}
    (b : Batch.Node) (ctx : Batch.interruptCtx) (inputs : list Batch.I)
    (arrive1 arrive2 : list Batch.taskResult → list Batch.taskResult) :
  (∀ l, arrive1 l ≡ₚ l) →
  (∀ l, arrive2 l ≡ₚ l) →
  Batch.trace (Batch.Invoke b ctx inputs arrive1)
    = Batch.trace (Batch.Invoke b ctx inputs arrive2) ∧
  NodeApi.sameOutcome (Batch.res (Batch.Invoke b ctx inputs arrive1))
                      (Batch.res (Batch.Invoke b ctx inputs arrive2)).
Proof.
  intros Ha1 Ha2. by apply outcome_independent_of_bound.
Qed.

Lemma outcome_is_schedule_independent_witness :
  NodeApi.sameOutcome
    (Batch.res (Batch.Invoke (Demo.reviewer 3) Demo.firstRun [0; 1; 2; 3] Demo.inOrder))
    (Batch.res (Batch.Invoke (Demo.reviewer 3) Demo.firstRun [0; 1; 2; 3] Demo.reversed)).
Proof.
  refine (proj2 (outcome_is_schedule_independent
                   (Demo.reviewer 3) Demo.firstRun [0; 1; 2; 3]
                   Demo.inOrder Demo.reversed _ _)).
  - apply inOrder_perm.
  - apply reversed_perm.
Defined.

(** X7. The result reflects what was received: outputs are returned
    only when every received result is a success; a reported task
    failure carries the index and the error of a received result whose
    error is not an interrupt signal; a composite interrupt is returned
    only when no ordinary failure was received, and bundles exactly the
    interrupt signals received, with their indices, of which there is
    at least one. *)
Theorem outcome_reflects_results `{env : Batch.Env}
    (b : Batch.Node) (ctx : Batch.interruptCtx) (inputs : list Batch.I)
    (arrive : list Batch.taskResult → list Batch.taskResult)
    (arrival : list Batch.taskResult) :
  (∀ l, arrive l ≡ₚ l) →
  Batch.received b ctx inputs arrive = Some arrival →
  NodeApi.reflects (Batch.res (Batch.Invoke b ctx inputs arrive)) arrival.
Proof.
  intros Ha Hr. rewrite Invoke_invoke.
  destruct (invoke_collected _ _ _ _ _ Ha Hr) as (eff & outs & c & Hc & _ & _ & ->).
  pose proof (collect_normalErr_None_iff _ (Batch.newCollector outs) _ eq_refl Hc)
    as Hnone.
  destruct (collect_suspensions _ _ _ Hc) as [He Hi]. cbn in He, Hi.
  unfold Batch.finish.
  destruct (Batch.normalErr c) as [e|] eqn:Hn.
  - assert (∃ i e', e = Batch.TaskFailed i e') as (i & e' & ->)
      by (eapply collect_normalErr_shape; [|exact Hc|exact Hn]; done).
    cbn. eapply collect_normalErr_origin; [|exact Hc|exact Hn]. done.
  - destruct Hnone as [Hnone _]. specialize (Hnone eq_refl).
    destruct (0 <? length (Batch.interruptErrs c))%nat eqn:El.
    + cbn. split; [done|]. split; [|done].
      intros E. rewrite E in El. done.
    + cbn. apply no_failure_no_suspension; [done|].
      rewrite He in El.
      destruct (Batch.suspensions arrival); [done|]. done.
Qed.

Lemma outcome_reflects_results_witness :
  NodeApi.reflects
    (Batch.res (Batch.Invoke (Demo.reviewer 2) Demo.firstRun [1; 7; 5; 0] Demo.reversed))
    [ @Batch.Build_taskResult Demo.demoEnv 0 "ok:batch_0" None;
      @Batch.Build_taskResult Demo.demoEnv 3 EmptyString (Some Demo.NeedsApproval);
      @Batch.Build_taskResult Demo.demoEnv 2 "ok:batch_2" None;
      @Batch.Build_taskResult Demo.demoEnv 1 EmptyString (Some Demo.ValidationFailed) ].
Proof.
  apply (outcome_reflects_results (Demo.reviewer 2) Demo.firstRun [1; 7; 5; 0]
           Demo.reversed).
  - apply reversed_perm.
  - reflexivity.
Defined.

(** X8. No cancellation: whatever the tasks return, a first run whose
    inner task compiles (bound not negative) compiles once and then
    invokes the task exactly once for every input, in index order, each
    with its index as address segment, the checkpoint ID of its index
    and its own input. *)
Theorem first_run_invokes_every_input_once `{env : Batch.Env}
    (b : Batch.Node) (ctx : Batch.interruptCtx) (inputs : list Batch.I)
    (arrive : list Batch.taskResult → list Batch.taskResult)
    (runner : Batch.Runnable) :
  Batch.resumeState ctx = None →
  0 <= Batch.maxConcurrency b →
  Batch.innerTask b Store.newBatchBridgeStore = inl runner →
  Batch.trace (Batch.Invoke b ctx inputs arrive)
  = Batch.EvCompile
      :: imap (λ i x, Batch.EvInvoke (Batch.mkCall (Z.of_nat i) x)) inputs.
Proof.
  intros Hr HB Hc. rewrite Invoke_invoke. unfold Batch.invoke.
  rewrite (prepare_first_run _ _ Hr), Hc, allIndices_length.
  destruct (length inputs =? 0)%nat eqn:E0.
  { apply Nat.eqb_eq in E0. by destruct inputs. }
  destruct (Batch.maxConcurrency b <? 0) eqn:EB; [apply Z.ltb_lt in EB; lia|].
  destruct (dispatch_in_range runner inputs (Batch.allIndices inputs))
    as (evs & rs & Hd & _); [apply allIndices_in_range|].
  rewrite Hd. cbn [Batch.trace]. f_equal.
  apply dispatch_Some in Hd as [Hev _].
  pose proof (Forall2_length _ _ _ Hev) as Hlen.
  rewrite allIndices_length in Hlen.
  apply list_eq. intros i. rewrite list_lookup_imap.
  destruct (inputs !! i) as [x|] eqn:Hx.
  - pose proof (lookup_lt_Some _ _ _ Hx) as Hi.
    destruct (Forall2_lookup_l _ _ _ i (Z.of_nat i) Hev)
      as (ev & Hevi & x' & Hx' & ->); [by apply allIndices_lookup|].
    rewrite Hevi. cbn. apply getIndex_Some in Hx' as [_ Hx'].
    rewrite Nat2Z.id in Hx'. congruence.
  - cbn. apply lookup_ge_None_2. apply lookup_ge_None_1 in Hx. lia.
Qed.

Lemma first_run_invokes_every_input_once_witness :
  Batch.trace (Batch.Invoke (Demo.reviewer 0) Demo.firstRun [7; 0; 5] Demo.inOrder)
  = [Batch.EvCompile;
     Batch.EvInvoke (Batch.mkCall 0 7);
     Batch.EvInvoke (Batch.mkCall 1 0);
     Batch.EvInvoke (Batch.mkCall 2 5)].
Proof.
  apply (first_run_invokes_every_input_once
           (Demo.reviewer 0) Demo.firstRun [7; 0; 5] Demo.inOrder Demo.review).
  - reflexivity.
  - cbn. lia.
  - reflexivity.
Defined.

Section RoundTripFacts.
Import Store Batch NodeApi.
Context `{env : Env}.

(** Without ordinary failure every received index succeeded or
    suspended. *)
Lemma index_success_or_suspended (rs : list taskResult) k :
  Forall (λ r, ¬ ordinaryFailure r) rs → k ∈ index <$> rs →
  k ∈ successIndices rs ∨ k ∈ (suspensions rs).*1.
Proof.
  induction rs as [|r rs IH]; [intros _ H; by apply elem_of_nil in H|].
  rewrite Forall_cons, fmap_cons, successIndices_cons, suspensions_cons.
  intros [Hr Hrs] Hk.
  destruct (err r) as [e|] eqn:Er.
  - destruct (ExtractInterruptInfo e) eqn:Ex.
    + apply elem_of_cons in Hk as [->|Hk].
      * right. cbn. left.
      * destruct (IH Hrs Hk); [by left|right; cbn; by right].
    + destruct Hr. by exists e.
  - apply elem_of_cons in Hk as [->|Hk].
    + left. left.
    + destruct (IH Hrs Hk); [left; by right|by right].
Qed.

(** What a first run that returns a composite interrupt has put in the
    state. *)
Lemma first_run_composite_state b ctx (inputs : list I) arrive runner st errs :
  resumeState ctx = None →
  0 <= maxConcurrency b →
  (∀ l, arrive l ≡ₚ l) →
  innerTask b newBatchBridgeStore = inl runner →
  res (Invoke b ctx inputs arrive) = Return None (Some (CompositeInterrupt st errs)) →
  OriginalInputs st = anyOfI <$> inputs ∧
  TotalCount st = Z.of_nat (length inputs) ∧
  InterruptedIndices st ≠ [] ∧
  Forall (λ i, 0 <= i < Z.of_nat (length inputs)) (InterruptedIndices st) ∧
  (∀ k, CompletedResults st !! k =
        if decide (0 <= k < Z.of_nat (length inputs) ∧ k ∉ InterruptedIndices st)
        then Some (anyOfO (outputOf runner inputs k)) else None).
Proof.
  intros Hr HB Ha Hc Hres. rewrite Invoke_invoke in Hres.
  assert (inputs ≠ []) as Hne.
  { intros ->. unfold invoke in Hres.
    rewrite (prepare_first_run _ _ Hr), Hc in Hres. done. }
  destruct (first_run_stages b ctx inputs arrive runner Hr HB Ha Hc Hne)
    as (evs & rs & arrival & c & Hd & Hix & Hrs & Hperm & _ & Hcol & _ & Hinv).
  rewrite Hinv in Hres. cbn [res] in Hres. unfold finish in Hres.
  destruct (normalErr c) as [e0|] eqn:Hn.
  { assert (∃ i e', e0 = TaskFailed i e') as (i & e' & ->)
      by (eapply collect_normalErr_shape; [|exact Hcol|exact Hn]; done).
    done. }
  destruct (0 <? length (interruptErrs c))%nat eqn:El; [|done].
  simplify_eq. cbn.
  destruct (collect_suspensions _ _ _ Hcol) as [He Hi]. cbn in He, Hi.
  pose proof (proj1 (collect_normalErr_None_iff _ (newCollector
                (replicate (length inputs) zeroO)) _ eq_refl Hcol) Hn) as Hnf.
  destruct (collect_successes (outputOf runner inputs) _ _ _ Hcol) as [Hm _].
  { rewrite Hperm. by eapply dispatch_outputs_functional. }
  assert (∀ k, k ∈ index <$> arrival ↔ 0 <= k < Z.of_nat (length inputs))
    as Hrange.
  { intros k. rewrite Hperm, Hix. apply allIndices_elem. }
  assert (NoDup (index <$> arrival)) as Hnd.
  { rewrite Hperm, Hix. apply allIndices_NoDup. }
  split; [done|]. split; [done|]. split; [|split].
  - rewrite Hi. rewrite He in El.
    destruct (suspensions arrival); [done|done].
  - rewrite Hi. apply Forall_forall. intros k Hk%suspensions_subset.
    by apply Hrange.
  - intros k. rewrite Hm, Hi. cbn. rewrite lookup_empty.
    destruct (decide (k ∈ successIndices arrival)) as [Hk|Hk].
    + rewrite decide_True; [done|]. split.
      * by apply Hrange, successIndices_subset.
      * by apply success_not_suspended.
    + rewrite decide_False; [done|]. intros [Hin Hnot]. apply Hk.
      apply Hrange in Hin.
      by destruct (index_success_or_suspended arrival k Hnf Hin).
Qed.

End RoundTripFacts.

(** X9. On a first run without ordinary failure in which some task
    suspends, [Invoke] returns the composite interrupt bundling every
    interrupt signal received, with a state that holds the inputs
    converted to [any], the output of every index that succeeded and of
    no other, the suspended indices and the number of inputs; when
    values converted to [any] convert back, that state is valid (it can
    be resumed from without a panic). *)
Theorem first_run_bundles_all_suspensions `{env : Batch.Env}
    (b : Batch.Node) (ctx : Batch.interruptCtx) (inputs : list Batch.I)
    (arrive : list Batch.taskResult → list Batch.taskResult)
    (runner : Batch.Runnable) (arrival : list Batch.taskResult) :
  Batch.resumeState ctx = None →
  0 <= Batch.maxConcurrency b →
  (∀ l, arrive l ≡ₚ l) →
  Batch.innerTask b Store.newBatchBridgeStore = inl runner →
  Batch.received b ctx inputs arrive = Some arrival →
  Forall (λ r, ¬ Batch.ordinaryFailure r) arrival →
  Batch.suspensions arrival ≠ [] →
  ∃ st,
    Batch.res (Batch.Invoke b ctx inputs arrive) =
      Batch.Return None
        (Some (Batch.CompositeInterrupt st (Batch.suspensions arrival).*2)) ∧
    Batch.OriginalInputs st = Batch.anyOfI <$> inputs ∧
    Batch.TotalCount st = Z.of_nat (length inputs) ∧
    Batch.InterruptedIndices st = (Batch.suspensions arrival).*1 ∧
    (∀ r, r ∈ arrival → Batch.err r = None →
       Batch.CompletedResults st !! Batch.index r
       = Some (Batch.anyOfO (Batch.output r))) ∧
    (∀ k, k ∉ Batch.successIndices arrival →
       Batch.CompletedResults st !! k = None) ∧
    ((∀ x, is_Some (Batch.assertI (Batch.anyOfI x))) →
     (∀ o, is_Some (Batch.assertO (Batch.anyOfO o))) → Batch.validState st).
Proof. apply first_run_suspension_bundle. Qed.

Lemma first_run_bundles_all_suspensions_witness :
  ∃ st,
    Batch.res (Batch.Invoke (Demo.reviewer 2) Demo.firstRun [1; 0; 5; 2] Demo.reversed)
    = Batch.Return None
        (Some (Batch.CompositeInterrupt st [Demo.NeedsApproval; Demo.NeedsApproval])) ∧
    Batch.InterruptedIndices st = [3; 1].
Proof.
  destruct (first_run_bundles_all_suspensions
              (Demo.reviewer 2) Demo.firstRun [1; 0; 5; 2] Demo.reversed Demo.review
              [ @Batch.Build_taskResult Demo.demoEnv 0 "ok:batch_0" None;
                @Batch.Build_taskResult Demo.demoEnv 3 EmptyString
                  (Some Demo.NeedsApproval);
                @Batch.Build_taskResult Demo.demoEnv 2 "ok:batch_2" None;
                @Batch.Build_taskResult Demo.demoEnv 1 EmptyString
                  (Some Demo.NeedsApproval) ])
    as (st & Hres & _ & _ & Hint & _).
  - reflexivity.
  - cbn. lia.
  - apply reversed_perm.
  - reflexivity.
  - reflexivity.
  - repeat (apply Forall_cons; split;
            [intros (e & He & Hx); cbn in He; try discriminate;
             injection He as <-; vm_compute in Hx; discriminate|]).
    apply Forall_nil_2.
  - discriminate.
  - exists st. split; [exact Hres|exact Hint].
Defined.

(** X10. One suspension, one resume: when a first run returns a
    composite interrupt and the invocation resumed from its state runs
    an inner task that now succeeds on every interrupted index, the
    resume returns one output per original input and a nil error; the
    slot of an interrupted index holds the output of the resumed task,
    every other slot the output the first run produced (values converted
    to [any] being assumed to convert back). *)
Theorem suspend_resume_round_trip `{env : Batch.Env}
    (b1 b2 : Batch.Node) (ctx1 ctx2 : Batch.interruptCtx)
    (inputs inputs2 : list Batch.I)
    (arrive1 arrive2 : list Batch.taskResult → list Batch.taskResult)
    (runner1 runner2 : Batch.Runnable)
    (st : Batch.NodeInterruptState) (errs : list Batch.E) :
  (∀ x, Batch.assertI (Batch.anyOfI x) = Some x) →
  (∀ o, Batch.assertO (Batch.anyOfO o) = Some o) →
  Batch.resumeState ctx1 = None →
  0 <= Batch.maxConcurrency b1 →
  (∀ l, arrive1 l ≡ₚ l) →
  Batch.innerTask b1 Store.newBatchBridgeStore = inl runner1 →
  Batch.res (Batch.Invoke b1 ctx1 inputs arrive1)
    = Batch.Return None (Some (Batch.CompositeInterrupt st errs)) →
  Batch.resumeState ctx2 = Some st →
  0 <= Batch.maxConcurrency b2 →
  (∀ l, arrive2 l ≡ₚ l) →
  Batch.innerTask b2 Store.newBatchBridgeStore = inl runner2 →
  (∀ i x, i ∈ Batch.InterruptedIndices st → Batch.getIndex inputs i = Some x →
     snd (runner2 (Batch.mkCall i x)) = None) →
  ∃ outs,
    Batch.res (Batch.Invoke b2 ctx2 inputs2 arrive2) = Batch.Return (Some outs) None ∧
    length outs = length inputs ∧
    ∀ (i : nat) x, inputs !! i = Some x →
      outs !! i =
      Some (if decide (Z.of_nat i ∈ Batch.InterruptedIndices st)
            then fst (runner2 (Batch.mkCall (Z.of_nat i) x))
            else fst (runner1 (Batch.mkCall (Z.of_nat i) x))).
Proof.
  intros HI HO Hr1 HB1 Ha1 Hc1 Hres1 Hr2 HB2 Ha2 Hc2 Hok.
  destruct (first_run_composite_state b1 ctx1 inputs arrive1 runner1 st errs
              Hr1 HB1 Ha1 Hc1 Hres1) as (Horig & Htot & Hsome & Hrange & Hcomp).
  destruct (prepare_resume ctx2 inputs2 st Hr2) as (eff & outs0 & Hp & Hle & Hlo & Hin & Hout).
  { rewrite Horig, length_fmap. lia. }
  { intros k v Hk _. rewrite Hcomp in Hk.
    destruct (decide _) as [[? _]|]; [lia|done]. }
  assert (eff = inputs) as ->.
  { apply list_eq. intros i. destruct (inputs !! i) as [x|] eqn:Hx.
    - rewrite (Hin i (Batch.anyOfI x)); [by rewrite HI|].
      by rewrite Horig, list_lookup_fmap, Hx.
    - apply lookup_ge_None_2. apply lookup_ge_None_1 in Hx. lia. }
  destruct (run_stages b2 ctx2 inputs2 arrive2 runner2 _ _ _ Hp Hc2 Hsome HB2 Ha2 Hrange)
    as (evs & rs & arrival & c & _ & Hix & Hrs & Hperm & _ & Hcol & Hlen & Hinv).
  assert (Forall (λ r, Batch.err r = None ∧
                       Batch.output r = NodeApi.outputOf runner2 inputs (Batch.index r))
                 arrival) as Hall.
  { rewrite Hperm. apply Forall_forall. intros r Hr.
    rewrite Forall_forall in Hrs. destruct (Hrs r Hr) as (x & Hx & Hrun).
    unfold NodeApi.outputOf. rewrite Hx. rewrite Hrun at 1 2.
    rewrite err_runTask, output_runTask. split; [|done].
    apply Hok; [|done]. rewrite <- Hix. by apply list_elem_of_fmap_2. }
  destruct (all_success_lists arrival) as (Hsus & Hsucc & Hnf).
  { eapply Forall_impl; [exact Hall|]. by intros r [? _]. }
  destruct (collect_suspensions _ _ _ Hcol) as [Hie _].
  rewrite Hsus in Hie. cbn in Hie.
  pose proof (collect_no_failure _ _ _ Hnf Hcol) as Hno. cbn in Hno.
  destruct (collect_successes (NodeApi.outputOf runner2 inputs) _ _ _ Hcol) as [_ Ho].
  { eapply Forall_impl; [exact Hall|]. by intros r [_ ?]. }
  exists (Batch.outputs c). rewrite Invoke_invoke, Hinv. cbn [Batch.res].
  unfold Batch.finish. rewrite Hno, Hie. cbn.
  split; [done|]. split; [by rewrite Hlen|].
  intros i x Hx. pose proof (lookup_lt_Some _ _ _ Hx) as Hi.
  rewrite Ho by (cbn; lia). cbn.
  assert (Z.of_nat i ∈ Batch.successIndices arrival
          ↔ Z.of_nat i ∈ Batch.InterruptedIndices st) as Hmem.
  { by rewrite Hsucc, Hperm, Hix. }
  destruct (decide (Z.of_nat i ∈ Batch.InterruptedIndices st)) as [Hint|Hint].
  - rewrite decide_True by by apply Hmem.
    unfold NodeApi.outputOf. by rewrite (getIndex_of_nat _ _ _ Hx).
  - rewrite decide_False by by rewrite Hmem.
    rewrite Hout by lia. rewrite Hcomp.
    rewrite decide_True by (split; [lia|done]). cbn. rewrite HO. cbn.
    unfold NodeApi.outputOf. by rewrite (getIndex_of_nat _ _ _ Hx).
Qed.

Lemma suspend_resume_round_trip_witness :
  ∃ outs,
    Batch.res (Batch.Invoke (Demo.approver 2) (Demo.resumeWith Demo.afterFirstRun)
                            [] Demo.reversed)
    = Batch.Return (Some outs) None ∧
    length outs = 4%nat.
Proof.
  destruct (suspend_resume_round_trip
              (Demo.reviewer 0) (Demo.approver 2)
              Demo.firstRun (Demo.resumeWith Demo.afterFirstRun)
              [0; 1; 2; 3] [] Demo.inOrder Demo.reversed
              Demo.review Demo.approved Demo.afterFirstRun
              [Demo.NeedsApproval; Demo.NeedsApproval])
    as (outs & Hres & Hlen & _).
  - intros x. reflexivity.
  - intros o. reflexivity.
  - reflexivity.
  - cbn. lia.
  - apply inOrder_perm.
  - reflexivity.
  - vm_compute. reflexivity.
  - reflexivity.
  - cbn. lia.
  - apply reversed_perm.
  - reflexivity.
  - intros i x _ _. reflexivity.
  - exists outs. split; [exact Hres|exact Hlen].
Defined.

(** X11. The order in which Go ranges over [CompletedResults] does not
    matter: running the loop body of lines 145-151 over the entries in
    any order gives the same slice, or the same panic. *)
Theorem restore_order_is_immaterial `{env : Batch.Env}
    (m : gmap Z Batch.any) (outs : list Batch.O) (order : list (Z * Batch.any)) :
  order ≡ₚ map_to_list m →
  foldr (uncurry Batch.restoreOne) (Some outs) order = Batch.restoreCompleted m outs.
Proof. apply restoreCompleted_any_order. Qed.

Lemma restore_order_is_immaterial_witness :
  foldr (uncurry Batch.restoreOne) (Some (replicate 4 EmptyString))
        (rev (map_to_list (Batch.CompletedResults Demo.afterFirstRun)))
  = Batch.restoreCompleted (Batch.CompletedResults Demo.afterFirstRun)
                           (replicate 4 EmptyString).
Proof.
  apply (restore_order_is_immaterial
           (Batch.CompletedResults Demo.afterFirstRun) (replicate 4 EmptyString)).
  symmetry. apply Permutation_rev.
Defined.

(** X12. A resume never invokes the task for an index outside
    [InterruptedIndices]: whatever the state (valid or not) and however
    the invocation ends, the indices invoked are an initial segment of
    the state's [InterruptedIndices]. *)
Theorem resume_invokes_only_interrupted `{env : Batch.Env}
    (b : Batch.Node) (ctx : Batch.interruptCtx) (inputs : list Batch.I)
    (arrive : list Batch.taskResult → list Batch.taskResult)
    (prev : Batch.NodeInterruptState) :
  Batch.resumeState ctx = Some prev →
  Batch.invokedIndices (Batch.trace (Batch.Invoke b ctx inputs arrive))
    `prefix_of` Batch.InterruptedIndices prev.
Proof.
  intros Hr. rewrite Invoke_invoke. unfold Batch.invoke.
  destruct (Batch.prepare ctx inputs) as [[[ixs eff] outs]|] eqn:Hp;
    [|apply prefix_nil].
  assert (ixs = Batch.InterruptedIndices prev) as ->.
  { unfold Batch.prepare in Hp. rewrite Hr in Hp.
    destruct (Batch.makeSlice _ _) as [e0|]; [|done]. cbn in Hp.
    destruct (Batch.restoreInputs _ _ _) as [e1|]; [|done]. cbn in Hp.
    destruct (Batch.restoreCompleted _ _) as [o1|]; [|done]. cbn in Hp.
    by simplify_eq. }
  destruct (Batch.innerTask b Store.newBatchBridgeStore) as [runner|];
    [|apply prefix_nil].
  destruct (length _ =? 0)%nat; [apply prefix_nil|].
  destruct (Batch.maxConcurrency b <? 0); [apply prefix_nil|].
  pose proof (dispatch_invoked_subset runner eff (Batch.InterruptedIndices prev))
    as Hsub.
  by destruct (Batch.dispatch runner eff (Batch.InterruptedIndices prev)) as [evs rs].
Qed.

Lemma resume_invokes_only_interrupted_witness :
  Batch.invokedIndices
    (Batch.trace (Batch.Invoke (Demo.reviewer 0) (Demo.resumeWith Demo.outOfRange)
                               [] Demo.inOrder))
    `prefix_of` [1; 5; 0].
Proof.
  apply (resume_invokes_only_interrupted
           (Demo.reviewer 0) (Demo.resumeWith Demo.outOfRange) [] Demo.inOrder
           Demo.outOfRange).
  reflexivity.
Defined.

Section BoundsFacts.
Import Store Batch.
Context `{env : Env}.

Lemma dispatch_out_of_range (runner : Runnable) (eff : list I) pre bad post :
  Forall (λ i, 0 <= i < Z.of_nat (length eff)) pre →
  ¬ (0 <= bad < Z.of_nat (length eff)) →
  ∃ evs, dispatch runner eff (pre ++ bad :: post) = (evs, None) ∧
         invokedIndices evs = pre.
Proof.
  intros Hpre Hbad. induction Hpre as [|i pre Hi _ IH].
  - exists []. cbn. unfold getIndex.
    apply inRange_false in Hbad. by rewrite Hbad.
  - destruct IH as (evs & Hd & Hev).
    destruct (getIndex_in_range eff i Hi) as [x Hx].
    exists (EvInvoke (mkCall i x) :: evs).
    cbn [app dispatch]. rewrite Hx, Hd. split; [done|]. cbn. by rewrite <- Hev.
Qed.

End BoundsFacts.

(** X13. An interrupted index outside the restored inputs makes a
    resume panic, but only after the task has been invoked for the
    indices listed before it: with a state that restores without panic,
    a compiling inner task and a bound that is not negative, the
    invocation panics on the first index that is negative or not
    smaller than [TotalCount], having invoked exactly the indices that
    precede it. *)
Theorem resume_out_of_range_index_panics `{env : Batch.Env}
    (b : Batch.Node) (ctx : Batch.interruptCtx) (inputs : list Batch.I)
    (arrive : list Batch.taskResult → list Batch.taskResult)
    (prev : Batch.NodeInterruptState) (runner : Batch.Runnable)
    (pre post : list Z) (bad : Z) :
  Batch.resumeState ctx = Some prev →
  Z.of_nat (length (Batch.OriginalInputs prev)) <= Batch.TotalCount prev →
  (∀ k v, Batch.CompletedResults prev !! k = Some v →
          is_Some (Batch.assertO v) → 0 <= k) →
  Batch.innerTask b Store.newBatchBridgeStore = inl runner →
  0 <= Batch.maxConcurrency b →
  Batch.InterruptedIndices prev = pre ++ bad :: post →
  Forall (λ i, 0 <= i < Batch.TotalCount prev) pre →
  ¬ (0 <= bad < Batch.TotalCount prev) →
  Batch.res (Batch.Invoke b ctx inputs arrive) = Batch.Panic ∧
  Batch.invokedIndices (Batch.trace (Batch.Invoke b ctx inputs arrive)) = pre.
Proof.
  intros Hr Ht Hnn Hc HB Hix Hpre Hbad.
  destruct (prepare_resume ctx inputs prev Hr Ht Hnn)
    as (eff & outs & Hp & Hle & _).
  rewrite Invoke_invoke. unfold Batch.invoke. rewrite Hp, Hc, Hix.
  destruct (length (pre ++ bad :: post) =? 0)%nat eqn:E0.
  { apply Nat.eqb_eq in E0. rewrite length_app in E0. cbn in E0. lia. }
  destruct (Batch.maxConcurrency b <? 0) eqn:EB; [apply Z.ltb_lt in EB; lia|].
  destruct (dispatch_out_of_range runner eff pre bad post) as (evs & Hd & Hev).
  { eapply Forall_impl; [exact Hpre|]. cbn. intros i. lia. }
  { lia. }
  rewrite Hd. cbn. done.
Qed.

Lemma resume_out_of_range_index_panics_witness :
  Batch.res (Batch.Invoke (Demo.approver 0) (Demo.resumeWith Demo.outOfRange)
                          [] Demo.inOrder) = Batch.Panic ∧
  Batch.invokedIndices
    (Batch.trace (Batch.Invoke (Demo.approver 0) (Demo.resumeWith Demo.outOfRange)
                               [] Demo.inOrder)) = [1].
Proof.
  apply (resume_out_of_range_index_panics
           (Demo.approver 0) (Demo.resumeWith Demo.outOfRange) [] Demo.inOrder
           Demo.outOfRange Demo.approved [1] [0] 5).
  - reflexivity.
  - cbn. lia.
  - intros k v H _. cbn in H. by rewrite lookup_empty in H.
  - reflexivity.
  - cbn. lia.
  - reflexivity.
  - repeat constructor; cbn; lia.
  - cbn. lia.
Defined.

(** * Further properties of the goroutines (node.go, lines 196-227) *)

Section SchedMore.
Import Sched SchedMeasure.

Lemma step_workLeft B s s' : step B s s' → (workLeft s' < workLeft s)%nat.
Proof.
  intros Hs.
  destruct Hs as [idx rest s _ Hp Ho|idx rest s _ Hp _ Ho|idx s Ho
                 |idx rest s _ Hp _ Ho|idx w1 w2 s _ Hw _|idx h1 h2 s Hh];
    unfold workLeft; cbn.
  - rewrite Hp, Ho. cbn. lia.
  - rewrite Hp, Ho. cbn. lia.
  - rewrite Ho. cbn. lia.
  - rewrite Hp, Ho. cbn. lia.
  - rewrite Hw, !length_app. cbn. lia.
  - rewrite Hh, !length_app. cbn. lia.
Qed.

Lemma nsteps_workLeft B n : ∀ s s',
  nsteps (step B) n s s' → (n + workLeft s' <= workLeft s)%nat.
Proof.
  induction n as [|n IH]; intros s s' H.
  - inversion H; subst. lia.
  - inversion H as [|? ? s1 ? Hs Hrest]; subst.
    apply step_workLeft in Hs. apply IH in Hrest. lia.
Qed.

(** A run with bound 2 over three indices, at its end: the first task,
    then the third, then the second finished. *)
Lemma allDone_reachable : rtc (step 2) (init [0; 1; 2]) allDone.
Proof.
  eapply rtc_l; [apply (step_first 2 0 [1; 2]); [lia|done..]|].
  eapply rtc_l; [apply (step_return 2 0); done|].
  eapply rtc_l; [apply (step_spawn 2 1 [2]); [lia|done..]|].
  eapply rtc_l; [apply (step_spawn 2 2 []); [lia|done..]|].
  eapply rtc_l; [apply (step_acquire 2 1 [2] []); [lia|done|cbn; lia]|].
  eapply rtc_l; [apply (step_acquire 2 2 [] []); [lia|done|cbn; lia]|].
  eapply rtc_l; [apply (step_release 2 2 [] [1]); done|].
  eapply rtc_l; [apply (step_release 2 1 [] []); done|].
  apply rtc_refl.
Qed.

Lemma twoRunning_reachable : rtc (step 2) (init [0; 1; 2; 3; 4]) twoRunning.
Proof.
  eapply rtc_l; [apply (step_first 2 0 [1; 2; 3; 4]); [lia|done..]|].
  eapply rtc_l; [apply (step_return 2 0); done|].
  eapply rtc_l; [apply (step_spawn 2 1 [2; 3; 4]); [lia|done..]|].
  eapply rtc_l; [apply (step_spawn 2 2 [3; 4]); [lia|done..]|].
  eapply rtc_l; [apply (step_spawn 2 3 [4]); [lia|done..]|].
  eapply rtc_l; [apply (step_acquire 2 1 [3; 2] []); [lia|done|cbn; lia]|].
  eapply rtc_l; [apply (step_acquire 2 2 [3] []); [lia|done|cbn; lia]|].
  apply rtc_refl.
Qed.

End SchedMore.

(** X14. No deadlock: for a bound that is not negative, in every state
    the goroutines of [invoke] can reach, either every task has run to
    its end (so that [wg.Wait] returns and the result channel is
    closed) or some goroutine can take a step; a task never waits for a
    semaphore slot that cannot be freed. *)
Theorem goroutines_never_deadlock (B : Z) (ixs : list Z) (s : Sched.state) :
  0 <= B →
  rtc (Sched.step B) (Sched.init ixs) s →
  Sched.done_ s ∨ ∃ s', Sched.step B s s'.
Proof. apply step_progress. Qed.

Lemma goroutines_never_deadlock_witness :
  Sched.done_ Sched.twoRunning ∨ ∃ s', Sched.step 2 Sched.twoRunning s'.
Proof.
  apply (goroutines_never_deadlock 2 [0; 1; 2; 3; 4] Sched.twoRunning).
  - lia.
  - apply twoRunning_reachable.
Defined.

(** X15. Termination: every step of a goroutine moves one index one
    stage further, so an execution over N indices has at most 3 N steps
    (provided each task returns). *)
Theorem goroutines_terminate (B : Z) (ixs : list Z) (n : nat) (s : Sched.state) :
  nsteps (Sched.step B) n (Sched.init ixs) s →
  (n + SchedMeasure.workLeft s <= 3 * length ixs)%nat.
Proof.
  intros H. apply nsteps_workLeft in H.
  assert (SchedMeasure.workLeft (Sched.init ixs) = 3 * length ixs)%nat as E
    by (unfold SchedMeasure.workLeft; cbn; lia).
  lia.
Qed.

Lemma goroutines_terminate_witness :
  (2 + SchedMeasure.workLeft Sched.afterFirst <= 3 * 3)%nat.
Proof.
  apply (goroutines_terminate 2 [0; 1; 2] 2 Sched.afterFirst).
  eapply nsteps_l; [apply (Sched.step_first 2 0 [1; 2]); [lia|done..]|].
  eapply nsteps_l; [apply (Sched.step_return 2 0); done|].
  apply nsteps_O.
Defined.

(** X16. Order of completion: when every task has run, each index has
    finished exactly once; under the sequential branch the tasks
    finished in the order of the indices, under the concurrent branch
    the first index finished first and the others in some order. *)
Theorem completion_order (B : Z) (ixs : list Z) (s : Sched.state) :
  rtc (Sched.step B) (Sched.init ixs) s →
  Sched.done_ s →
  (0 <= B → Sched.finished s ≡ₚ ixs) ∧
  (B = 0 → rev (Sched.finished s) = ixs) ∧
  (0 < B → match ixs with
           | [] => Sched.finished s = []
           | first :: rest =>
               ∃ spawned, spawned ≡ₚ rest ∧
                          rev (Sched.finished s) = first :: spawned
           end).
Proof.
  intros Hr Hd.
  destruct (completion_order_is_arrival_order B ixs s Hr Hd) as [Hseq Hcon].
  split; [|split; [exact Hseq|exact Hcon]].
  intros HB. destruct (decide (B = 0)) as [->|Hne].
  - rewrite <- (Hseq eq_refl). apply Permutation_rev.
  - specialize (Hcon ltac:(lia)). destruct ixs as [|first rest].
    + by rewrite Hcon.
    + destruct Hcon as (spawned & Hp & Hrev).
      rewrite (Permutation_rev (Sched.finished s)), Hrev. by rewrite Hp.
Qed.

Lemma completion_order_witness :
  rev (Sched.finished Sched.allDone) = [0; 2; 1] ∧
  Sched.finished Sched.allDone ≡ₚ [0; 1; 2].
Proof.
  destruct (completion_order 2 [0; 1; 2] Sched.allDone) as (Hperm & _ & _).
  - apply allDone_reachable.
  - by repeat split.
  - split; [reflexivity|]. apply Hperm. lia.
Defined.

(** * Further properties of options.go *)

Section OptionsFacts.
Context {composeOption : Type}.

Lemma applyBatchOptions_fold (ls : list (list composeOption)) :
  ∀ o : Options.options (composeOption := composeOption),
    Options.innerOptions
      (fold_left (λ o opt, opt o) (Options.WithInnerOptions <$> ls) o)
    = Options.innerOptions o ++ concat ls.
Proof.
  induction ls as [|l ls IH]; intros o; cbn.
  - by rewrite app_nil_r.
  - rewrite IH. cbn. by rewrite <- app_assoc.
Qed.

End OptionsFacts.

(** X17. Every option a caller passes through [WithInnerOptions]
    reaches every task: for any sequence of [WithInnerOptions] calls,
    the options of the [runner.Invoke] of an index are the checkpoint
    ID of that index followed by all the caller's options, in the order
    given. *)
Theorem inner_options_reach_every_task {composeOption : Type}
    (WithCheckPointID : string → composeOption)
    (ls : list (list composeOption)) (index : Z) :
  Options.invokeOpts WithCheckPointID
    (Options.applyBatchOptions (Options.WithInnerOptions <$> ls)) index
  = WithCheckPointID (Store.makeBatchCheckpointID index) :: concat ls.
Proof.
  unfold Options.invokeOpts, Options.applyBatchOptions.
  by rewrite applyBatchOptions_fold.
Qed.

(** * Properties of the example program (main.go) *)

(** X19. The in-memory checkpoint store of the example: a [Get] after a
    [Set] under the same ID returns the bytes set, found, without
    error; a [Set] does not change what [Get] returns under any other
    ID; [Set] never fails; a new store holds nothing.  Unlike the
    bridge store it accepts every ID. *)
Theorem memory_store_round_trip (m : Example.memoryCheckpointStore)
    (id : string) (d : list Byte.byte) :
  Example.Get (fst (Example.Set_ m id d)) id = (Some d, true, None) ∧
  snd (Example.Set_ m id d) = None ∧
  (∀ id', id' ≠ id →
     Example.Get (fst (Example.Set_ m id d)) id' = Example.Get m id') ∧
  Example.Get Example.newMemoryCheckpointStore id = (None, false, None).
Proof.
  unfold Example.Get, Example.Set_. cbn.
  rewrite lookup_insert_eq, lookup_empty. repeat split.
  intros id' Hne. by rewrite lookup_insert_ne.
Qed.

Section ReduceFacts.
Import Example.
Context {float64 Time : Type}.
Context (fadd : float64 → float64 → float64).

Lemma reduce_fold (results : list (@ReviewResult float64 Time)) :
  ∀ total report,
    let acc := fold_left (reduceOne fadd) results (total, report) in
    TotalDocuments (snd acc) = TotalDocuments report ∧
    ApprovedCount (snd acc)
      = ApprovedCount report + Z.of_nat (length (List.filter Approved results)) ∧
    RejectedCount (snd acc)
      = RejectedCount report
        + Z.of_nat (length (List.filter (λ r, negb (Approved r)) results)) ∧
    AverageScore (snd acc) = AverageScore report ∧
    HighPriorityPass (snd acc) = HighPriorityPass report ∧
    Results (snd acc) = Results report ∧
    GeneratedAt (snd acc) = GeneratedAt report.
Proof.
  induction results as [|r results IH]; intros total report; cbn.
  - repeat split; lia.
  - destruct (Approved r) eqn:Ea; cbn.
    + destruct (IH (fadd total (Score r))
                  {| TotalDocuments := TotalDocuments report;
                     ApprovedCount := ApprovedCount report + 1;
                     RejectedCount := RejectedCount report;
                     AverageScore := AverageScore report;
                     HighPriorityPass := HighPriorityPass report;
                     Results := Results report;
                     GeneratedAt := GeneratedAt report |})
        as (H1 & H2 & H3 & H4 & H5 & H6 & H7).
      cbn in *. repeat split; try done; lia.
    + destruct (IH (fadd total (Score r))
                  {| TotalDocuments := TotalDocuments report;
                     ApprovedCount := ApprovedCount report;
                     RejectedCount := RejectedCount report + 1;
                     AverageScore := AverageScore report;
                     HighPriorityPass := HighPriorityPass report;
                     Results := Results report;
                     GeneratedAt := GeneratedAt report |})
        as (H1 & H2 & H3 & H4 & H5 & H6 & H7).
      cbn in *. repeat split; try done; lia.
Qed.

Lemma filter_partition_length {A} (p : A → bool) (l : list A) :
  (length (List.filter p l) + length (List.filter (λ x, negb (p x)) l)
   = length l)%nat.
Proof.
  induction l as [|x l IH]; [done|]. cbn. destruct (p x); cbn; lia.
Qed.

End ReduceFacts.

(** X20. The report of the reduce node counts every result once: the
    total is the number of results, the approved count the number of
    approved results, the rejected count the number of the others, so
    that approved and rejected add up to the total; the results and the
    time are passed on, [HighPriorityPass] is never computed and stays
    0, and an empty batch leaves the average at zero without dividing. *)
Theorem reduce_counts_every_result {float64 Time : Type}
    (fzero : float64) (fadd fdiv : float64 → float64 → float64)
    (float64_of_int : Z → float64) (now : Time)
    (results : list (@Example.ReviewResult float64 Time)) :
  let report := Example.reduce fzero fadd fdiv float64_of_int now results in
  Example.TotalDocuments report = Z.of_nat (length results) ∧
  Example.ApprovedCount report
    = Z.of_nat (length (List.filter Example.Approved results)) ∧
  Example.ApprovedCount report + Example.RejectedCount report
    = Example.TotalDocuments report ∧
  Example.HighPriorityPass report = 0 ∧
  Example.Results report = results ∧
  Example.GeneratedAt report = now ∧
  (results = [] → Example.AverageScore report = fzero).
Proof.
  cbv zeta. unfold Example.reduce.
  pose proof (reduce_fold fadd results fzero
                {| Example.TotalDocuments := Z.of_nat (length results);
                   Example.ApprovedCount := 0;
                   Example.RejectedCount := 0;
                   Example.AverageScore := fzero;
                   Example.HighPriorityPass := 0;
                   Example.Results := results;
                   Example.GeneratedAt := now |}) as H.
  cbv zeta in H.
  destruct (fold_left _ _ _) as [total report].
  cbn [snd Example.TotalDocuments Example.ApprovedCount Example.RejectedCount
       Example.AverageScore Example.HighPriorityPass Example.Results
       Example.GeneratedAt] in H.
  destruct H as (H1 & H2 & H3 & H4 & H5 & H6 & H7).
  pose proof (filter_partition_length Example.Approved results) as Hpart.
  destruct (0 <? length results)%nat eqn:El;
    cbn [Example.TotalDocuments Example.ApprovedCount Example.RejectedCount
         Example.AverageScore Example.HighPriorityPass Example.Results
         Example.GeneratedAt].
  - repeat split; try done; try lia.
    intros ->. done.
  - repeat split; try done; lia.
Qed.

Section SampleFacts.
Import GoStd Example.

Lemma parseDigits_zeros k s : parseDigits (zeros k s) 0 = parseDigits s 0.
Proof. induction k as [|k IH]; [done|]. cbn [zeros]. by rewrite parseDigits_leading_zero. Qed.

Lemma zeros_head k s :
  zeros k s = s ∨ ∃ rest, zeros k s = String "0" rest.
Proof. destruct k; [by left|right]. by eexists. Qed.

Lemma Atoi_fmtInt03 v : 0 <= v <= maxInt → Atoi (fmtInt03 v) = Some v.
Proof.
  intros Hv. unfold fmtInt03.
  destruct (v <? 0) eqn:E; [apply Z.ltb_lt in E; lia|].
  rewrite Z.abs_eq by lia.
  set (digits := fmtDigits 20 v EmptyString).
  pose proof (parseDigits_fmtDigits 20 v EmptyString) as Hp.
  cbn [parseDigits] in Hp. fold digits in Hp.
  assert (parseDigits (zeros (3 - String.length digits) digits) 0 = Some v) as Hz.
  { rewrite parseDigits_zeros. apply Hp. unfold maxInt in Hv. lia. }
  assert (∃ d rest, 0 <= d <= 9 ∧
            zeros (3 - String.length digits) digits = String (digitChar d) rest)
    as (d & rest & Hd & Heq).
  { destruct (zeros_head (3 - String.length digits) digits) as [->|[rest ->]].
    - apply (fmtDigits_head 19 v EmptyString). lia.
    - exists 0, rest. split; [lia|done]. }
  rewrite Heq in *. unfold Atoi.
  destruct (digitChar_not_sign d Hd) as [-> ->]. cbn [orb].
  rewrite Hz. unfold minInt, maxInt in *.
  destruct (- 2 ^ 63 <=? v) eqn:E1; [|apply Z.leb_gt in E1; lia].
  destruct (v <=? 2 ^ 63 - 1) eqn:E2; [|apply Z.leb_gt in E2; lia].
  reflexivity.
Qed.

Lemma sampleDocument_id i :
  0 <= i < maxInt →
  Atoi (dropBytes 4 (DocumentID (sampleDocument i))) = Some (i + 1).
Proof.
  intros Hi. unfold sampleDocument. cbn [DocumentID].
  change (dropBytes 4 (String.append "DOC-" (fmtInt03 (i + 1))))
    with (fmtInt03 (i + 1)).
  apply Atoi_fmtInt03. lia.
Qed.

Lemma sampleDocument_priority (i : nat) :
  priorities !! (i mod 3)%nat
  = Some (Priority (sampleDocument (Z.of_nat i))).
Proof.
  unfold sampleDocument. cbn [Priority length priorities].
  change (Z.of_nat 3) with 3.
  assert (Z.to_nat (Z.of_nat i mod 3) = (i mod 3)%nat) as ->.
  { rewrite <- (Nat2Z.id (i mod 3)). f_equal.
    by rewrite Nat2Z.inj_mod. }
  pose proof (Nat.mod_upper_bound i 3 ltac:(lia)) as Hlt.
  destruct (i mod 3)%nat as [|[|[|k]]]; try done. lia.
Qed.

End SampleFacts.

(** X21. [createSampleDocuments(count)], for a count that is not
    negative, returns exactly [count] documents; the document at
    position [i] has the ID [DOC-] followed by [i+1] written with at
    least three digits and the priority at position [i mod 3] of high,
    medium, low; the IDs are pairwise distinct. *)
Theorem sample_documents_are_distinct (count : Z) :
  0 <= count <= GoStd.maxInt →
  ∃ docs,
    Example.createSampleDocuments count = Some docs ∧
    Z.of_nat (length docs) = count ∧
    (∀ (i : nat) doc, docs !! i = Some doc →
       Example.DocumentID doc
         = String.append "DOC-" (Example.fmtInt03 (Z.of_nat i + 1)) ∧
       Example.priorities !! (i mod 3)%nat = Some (Example.Priority doc)) ∧
    NoDup (Example.DocumentID <$> docs).
Proof.
  intros Hc. unfold Example.createSampleDocuments.
  destruct (count <? 0) eqn:E; [apply Z.ltb_lt in E; lia|].
  eexists. split; [done|]. split; [|split].
  - rewrite length_fmap, length_seq. lia.
  - intros i doc Hdoc. rewrite list_lookup_fmap in Hdoc.
    destruct (seq 0 (Z.to_nat count) !! i) as [j|] eqn:Hj; [|done].
    apply lookup_seq in Hj as [-> _]. cbn in Hdoc. simplify_eq.
    split; [done|]. apply sampleDocument_priority.
  - rewrite <- list_fmap_compose.
    apply NoDup_fmap_2_strong; [|apply NoDup_seq].
    intros x y Hx Hy Heq. unfold compose in Heq.
    apply elem_of_seq in Hx, Hy.
    pose proof (sampleDocument_id (Z.of_nat x) ltac:(lia)) as Ex.
    pose proof (sampleDocument_id (Z.of_nat y) ltac:(lia)) as Ey.
    rewrite Heq, Ey in Ex. simplify_eq. lia.
Qed.

Lemma sample_documents_are_distinct_witness :
  ∃ docs,
    Example.createSampleDocuments 4 = Some docs ∧
    Z.of_nat (length docs) = 4 ∧
    (∀ (i : nat) doc, docs !! i = Some doc →
       Example.DocumentID doc
         = String.append "DOC-" (Example.fmtInt03 (Z.of_nat i + 1)) ∧
       Example.priorities !! (i mod 3)%nat = Some (Example.Priority doc)) ∧
    NoDup (Example.DocumentID <$> docs).
Proof.
  apply (sample_documents_are_distinct 4). unfold GoStd.maxInt. lia.
Defined.

(** * The bound and the length of the outputs *)

Section BoundFacts.
Import Store Batch NodeApi.
Context `{env : Env}.

(** The effective inputs are the inputs passed on a first run and
    [TotalCount] restored values on a resume. *)
Lemma prepare_effective_length ctx (inputs : list I) ixs eff outs :
  prepare ctx inputs = Some (ixs, eff, outs) →
  Z.of_nat (length eff) =
  match resumeState ctx with
  | None => Z.of_nat (length inputs)
  | Some prev => TotalCount prev
  end.
Proof.
  unfold prepare. destruct (resumeState ctx) as [prev|].
  - unfold makeSlice. destruct (TotalCount prev <? 0) eqn:E0; [done|].
    apply Z.ltb_ge in E0. cbn.
    destruct (restoreInputs _ _ _) as [e1|] eqn:Hr; [|done]. cbn.
    destruct (restoreCompleted _ _) as [o1|]; [|done]. cbn.
    intros [= <- <- <-]. apply restoreInputs_length in Hr.
    rewrite Hr, length_replicate. lia.
  - by intros [= <- <- <-].
Qed.

End BoundFacts.

(** X22. Sequential and concurrent processing are equivalent: a node
    with bound 0 and a node with a positive bound and the same inner
    task, run on the same invocation, make the same calls and end
    alike, whatever the order in which the concurrent results arrive
    (the same outputs; or both a task failure, possibly of different
    tasks; or composite interrupts equal up to the order of the
    signals). *)
Theorem sequential_concurrent_equivalence `{env : Batch.Env}
    (b0 bN : Batch.Node) (ctx : Batch.interruptCtx) (inputs : list Batch.I)
    (arrive : list Batch.taskResult → list Batch.taskResult) :
  Batch.innerTask b0 = Batch.innerTask bN →
  Batch.maxConcurrency b0 = 0 →
  0 < Batch.maxConcurrency bN →
  (∀ l, arrive l ≡ₚ l) →
  Batch.trace (Batch.Invoke b0 ctx inputs arrive)
    = Batch.trace (Batch.Invoke bN ctx inputs arrive) ∧
  NodeApi.sameOutcome (Batch.res (Batch.Invoke b0 ctx inputs arrive))
                      (Batch.res (Batch.Invoke bN ctx inputs arrive)).
Proof.
  intros Ht H0 HN Ha. apply outcome_independent_of_bound; try done.
  rewrite H0. symmetry. apply Z.ltb_ge. lia.
Qed.

Lemma sequential_concurrent_equivalence_witness :
  NodeApi.sameOutcome
    (Batch.res (Batch.Invoke (Demo.reviewer 0) Demo.firstRun [1; 0; 5; 2] Demo.reversed))
    (Batch.res (Batch.Invoke (Demo.reviewer 3) Demo.firstRun [1; 0; 5; 2] Demo.reversed)).
Proof.
  refine (proj2 (sequential_concurrent_equivalence
                   (Demo.reviewer 0) (Demo.reviewer 3) Demo.firstRun [1; 0; 5; 2]
                   Demo.reversed _ _ _ _)).
  - reflexivity.
  - reflexivity.
  - cbn. lia.
  - apply reversed_perm.
Defined.

(** X23. One output per item: whenever [Invoke] returns outputs, there
    are as many as inputs on a first run, and [TotalCount] on a resume
    (whatever inputs were passed and whether or not the state is
    valid). *)
Theorem outputs_have_one_slot_per_item `{env : Batch.Env}
    (b : Batch.Node) (ctx : Batch.interruptCtx) (inputs : list Batch.I)
    (arrive : list Batch.taskResult → list Batch.taskResult)
    (outs : list Batch.O) :
  Batch.res (Batch.Invoke b ctx inputs arrive) = Batch.Return (Some outs) None →
  Z.of_nat (length outs) =
  match Batch.resumeState ctx with
  | None => Z.of_nat (length inputs)
  | Some prev => Batch.TotalCount prev
  end.
Proof.
  rewrite Invoke_invoke. unfold Batch.invoke. intros Hres.
  destruct (Batch.prepare ctx inputs) as [[[ixs eff] outs0]|] eqn:Hp; [|done].
  rewrite <- (prepare_effective_length _ _ _ _ _ Hp).
  rewrite <- (prepare_lengths _ _ _ _ _ Hp).
  destruct (Batch.innerTask b Store.newBatchBridgeStore) as [runner|]; [|done].
  destruct (length ixs =? 0)%nat; [cbn in Hres; by simplify_eq|].
  destruct (Batch.maxConcurrency b <? 0); [done|].
  destruct (Batch.dispatch runner eff ixs) as [evs [rs|]]; [|done].
  cbn in Hres.
  destruct (Batch.collect _ _) as [c|] eqn:Hc; [|done].
  apply collect_length in Hc. cbn in Hc.
  unfold Batch.finish in Hres.
  destruct (Batch.normalErr c); [done|].
  destruct (0 <? length (Batch.interruptErrs c))%nat; [done|].
  simplify_eq. by rewrite Hc.
Qed.

Lemma outputs_have_one_slot_per_item_witness :
  Z.of_nat (length ["approved:0"%string; "ok:batch_1"%string;
                    "approved:2"%string; "ok:batch_3"%string]) = 4.
Proof.
  apply (outputs_have_one_slot_per_item
           (Demo.approver 0) (Demo.resumeWith Demo.afterFirstRun) [5; 6] Demo.inOrder).
  vm_compute. reflexivity.
Defined.
